(** * KaleidoscopeVisualizer: the per-frame audio-to-visual pipeline

    A shallow embedding of [src/components/KaleidoscopeVisualizer.tsx]:
    the refs the component keeps between frames, the analyser binding
    ([connectAnalyser] and the effect that follows [params.smoothing] and
    [params.fftSize]), the animation callback [draw], the canvas [resize],
    and the handlers of the audio session ([playFromElement], [startMic],
    [stopAudio], the Play/Pause button and the controls).

    Numbers.  A JavaScript [number] is an IEEE-754 double.  The embedding
    reads every finite [number] as the exact rational it denotes and every
    operator as the exact operation on rationals ([Q]); rounding, [NaN]
    and the infinities are outside the model, and the properties proved
    over it are those that do not hang on the last bit.  Where one does,
    the beat update is evaluated on binary64 itself ([B64]).
    [Uint8Array] cells are
    [byte]s, canvas dimensions ([unsigned long]) are [N], and
    [Math.floor] lands in [Z]. *)

From Stdlib Require Import QArith Qround Qminmax Qabs Qpower ZArith List Lia Lqa Bool.
From Stdlib.Strings Require Import Byte.
From Stdlib Require String.
From Stdlib Require PrimFloat.
Set Warnings "-inexact-float".
Import String.StringSyntax.
Delimit Scope string_scope with string.
Import ListNotations.
Open Scope Q_scope.

(** ** Numeric helpers standing for JavaScript operators *)

Module Js.

(** [Math.PI]: the double nearest to pi, an exact dyadic rational. *)
Definition Math_PI : Q := 884279719003555 # 281474976710656.

(** [x || 0] on a number: [0] is falsy, every other finite number is kept. *)
Definition orZero (x : Q) : Q := if Qeq_bool x 0 then 0 else x.

(** Truncation toward zero, used by the remainder operator. *)
Definition trunc (x : Q) : Z := if Qle_bool 0 x then Qfloor x else Qceiling x.

(** [x % m]: the remainder takes the sign of the dividend. *)
Definition rem (x m : Q) : Q := x - m * inject_Z (trunc (x / m)).

(** The value of a [Uint8Array] cell as a number. *)
Definition byteQ (b : byte) : Q := inject_Z (Z.of_N (Byte.to_N b)).

(** [0, 1, ..., n-1], the values a counting [for] loop runs through. *)
Definition upto (n : Z) : list Z := map Z.of_nat (seq 0 (Z.to_nat n)).

End Js.

(** ** Exceptions the canvas calls of [draw] can raise *)

Inductive DOMException : Type :=
| IndexSizeError.

Inductive result (A : Type) : Type :=
| Ok (a : A)
| Throw (e : DOMException).
Arguments Ok {A} a.
Arguments Throw {A} e.

Definition bind {A B : Type} (r : result A) (k : A -> result B) : result B :=
  match r with
  | Ok a => k a
  | Throw e => Throw e
  end.

Notation "x <- r ;; k" := (bind r (fun x => k))
  (at level 61, r at next level, right associativity).

(** A loop body run over the loop's values in order, stopping at the
    first exception. *)
Fixpoint forEach {A B : Type} (body : A -> result B) (l : list A)
  : result (list B) :=
  match l with
  | [] => Ok []
  | a :: l' =>
      b <- body a ;;
      bs <- forEach body l' ;;
      Ok (b :: bs)
  end.

(** ** Data *)

Record VisualParams : Type := mkParams {
  segments : Q;
  rotationSpeed : Q;
  sensitivity : Q;
  bloom : Q;
  smoothing : Q;
  fftSize : Z;
  baseHue : Q;
  mirror : bool
}.

Definition DEFAULT_PARAMS : VisualParams :=
  {| segments := 12;
     rotationSpeed := 0.35;
     sensitivity := 1.2;
     bloom := 0.3;
     smoothing := 0.85;
     fftSize := 1024;
     baseHue := 220;
     mirror := true |}.

(** The part of a Web Audio [AnalyserNode] the component touches. *)
Record AnalyserNode : Type := mkAnalyser {
  smoothingTimeConstant : Q;
  an_fftSize : Z
}.

(** Setting [fftSize] raises unless the value is a power of two in
    [32, 32768]. *)
Definition validFftSize (n : Z) : bool :=
  existsb (Z.eqb n) [32; 64; 128; 256; 512; 1024; 2048; 4096; 8192; 16384; 32768]%Z.

(** Setting [smoothingTimeConstant] raises outside [0, 1]. *)
Definition validSmoothing (s : Q) : bool := Qle_bool 0 s && Qle_bool s 1.

Definition frequencyBinCount (a : AnalyserNode) : Z := (an_fftSize a / 2)%Z.

(** [new Uint8Array(n)]: [n] zero cells. *)
Definition newUint8Array (n : Z) : list byte := repeat x00 (Z.to_nat n).

(** The refs of the component that [draw] reads and writes, together with
    [lastTime], the variable the animation effect closes over. *)
Record State : Type := mkState {
  analyserRef : option AnalyserNode;
  freqDataRef : option (list byte);
  rotationRef : Q;
  beatEnergyAvgRef : Q;
  lastTime : Q
}.

Definition initialState (t0 : Q) : State :=
  {| analyserRef := None;
     freqDataRef := None;
     rotationRef := 0;
     beatEnergyAvgRef := 0;
     lastTime := t0 |}.

Record Canvas : Type := mkCanvas {
  width : N;
  height : N
}.

(** ** The analyser binding *)

(** [connectAnalyser]: a fresh analyser gets the current smoothing and
    transform size and a fresh zeroed buffer; either assignment may raise,
    and then no ref has been written yet. *)
Definition connectAnalyser (params : VisualParams) (st : State) : State :=
  if validSmoothing (smoothing params) && validFftSize (fftSize params) then
    let analyser := {| smoothingTimeConstant := smoothing params;
                       an_fftSize := fftSize params |} in
    {| analyserRef := Some analyser;
       freqDataRef := Some (newUint8Array (frequencyBinCount analyser));
       rotationRef := rotationRef st;
       beatEnergyAvgRef := beatEnergyAvgRef st;
       lastTime := lastTime st |}
  else st.

(** The effect on [params.smoothing, params.fftSize]: the smoothing is
    assigned outside the [try]; the resize and the reallocation are inside
    it, and a failed resize keeps the previous buffer. *)
Definition updateAnalyser (params : VisualParams) (st : State) : State :=
  match analyserRef st with
  | None => st
  | Some analyser =>
      if validSmoothing (smoothing params) then
        let analyser1 := {| smoothingTimeConstant := smoothing params;
                            an_fftSize := an_fftSize analyser |} in
        if (an_fftSize analyser =? fftSize params)%Z then
          {| analyserRef := Some analyser1;
             freqDataRef := freqDataRef st;
             rotationRef := rotationRef st;
             beatEnergyAvgRef := beatEnergyAvgRef st;
             lastTime := lastTime st |}
        else if validFftSize (fftSize params) then
          let analyser2 := {| smoothingTimeConstant := smoothing params;
                              an_fftSize := fftSize params |} in
          {| analyserRef := Some analyser2;
             freqDataRef := Some (newUint8Array (frequencyBinCount analyser2));
             rotationRef := rotationRef st;
             beatEnergyAvgRef := beatEnergyAvgRef st;
             lastTime := lastTime st |}
        else
          {| analyserRef := Some analyser1;
             freqDataRef := freqDataRef st;
             rotationRef := rotationRef st;
             beatEnergyAvgRef := beatEnergyAvgRef st;
             lastTime := lastTime st |}
      else st
  end.

(** The animation effect starts (again, after a change of [params]):
    [lastTime] is read from the clock. *)
Definition startLoop (t : Q) (st : State) : State :=
  {| analyserRef := analyserRef st;
     freqDataRef := freqDataRef st;
     rotationRef := rotationRef st;
     beatEnergyAvgRef := beatEnergyAvgRef st;
     lastTime := t |}.

(** [analyser.getByteFrequencyData(freqData)] writes the analyser's current
    magnitudes into the buffer in place: the buffer keeps its length, cells
    beyond the data keep their content. *)
Definition getByteFrequencyData (data buf : list byte) : list byte :=
  firstn (length buf) data ++ skipn (length data) buf.

(** ** The animation callback [draw] *)

(** What one call of [draw] paints, as the values handed to the canvas. *)
Record Bar : Type := mkBar {
  bar_localAngle : Q;
  bar_bin : Q;
  bar_mag : Q;
  bar_r0 : Q;
  bar_r1 : Q;
  bar_glowWidth : Q;
  bar_coreWidth : Q;
  bar_coreEnd : Q
}.

Record Wedge : Type := mkWedge {
  wedge_rotate : Q;
  wedge_mirrored : bool;
  wedge_clipRadius : Q;
  wedge_bars : list Bar;
  wedge_nucleusR : Q
}.

Record Frame : Type := mkFrame {
  fr_overlay : Q * Q;
  fr_energy : Q;
  fr_beatBoost : Q;
  fr_segCount : Z;
  fr_hue : Q;
  fr_lightness : Q;
  fr_glowAlpha : Q;
  fr_wedges : list Wedge
}.

(** The arguments of one call of [draw]: the canvas size and the params
    the callback closes over, the timestamp, and the magnitudes the
    analyser holds at that moment. *)
Record FrameIn : Type := mkFrameIn {
  fi_canvas : Canvas;
  fi_params : VisualParams;
  fi_now : Q;
  fi_data : list byte
}.

(** [for (let i = 0; i < freqData.length; i++) sum += freqData[i]] *)
Definition sumOf (freqData : list byte) : Q :=
  fold_left (fun sum b => sum + Js.byteQ b) freqData 0.

(** [energy = sum / freqData.length / 255] *)
Definition energyOf (freqData : list byte) : Q :=
  sumOf freqData / inject_Z (Z.of_nat (length freqData)) / 255.

Definition alpha : Q := 0.9.

(** The rolling average and the peak: from [beatEnergyAvgRef.current] and
    the frame's energy to the new average and [beatBoost]. *)
Definition beatUpdate (current energy : Q) : Q * Q :=
  let prev := Js.orZero current in
  let avg := prev * alpha + energy * (1 - alpha) in
  let diff := Qmax 0 (energy - avg) in
  (avg, diff * 2.2).

(** [dt = Math.min(0.05, (now - lastTime) / 1000)] *)
Definition frameDt (lastTime now : Q) : Q :=
  Qmin 0.05 ((now - lastTime) / 1000).

(** The first half of [draw]: the clock, the audio features and the
    rotation.  Returns the new state with [energy] and [beatBoost]. *)
Definition advance (params : VisualParams) (st : State) (now : Q)
  (data : list byte) : State * (Q * Q) :=
  let dt := frameDt (lastTime st) now in
  match analyserRef st, freqDataRef st with
  | Some analyser, Some freqData =>
      let freqData' := getByteFrequencyData data freqData in
      let energy := energyOf freqData' in
      let '(avg, beatBoost) := beatUpdate (beatEnergyAvgRef st) energy in
      ({| analyserRef := Some analyser;
          freqDataRef := Some freqData';
          rotationRef :=
            rotationRef st + (rotationSpeed params + beatBoost * 0.8) * dt;
          beatEnergyAvgRef := avg;
          lastTime := now |},
       (energy, beatBoost))
  | _, _ =>
      ({| analyserRef := analyserRef st;
          freqDataRef := freqDataRef st;
          rotationRef := rotationRef st + (rotationSpeed params + 0 * 0.8) * dt;
          beatEnergyAvgRef := beatEnergyAvgRef st;
          lastTime := now |},
       (0, 0))
  end.

(** [segCount = Math.max(2, Math.min(48, Math.floor(params.segments)))] *)
Definition segCountOf (params : VisualParams) : Z :=
  Z.max 2 (Z.min 48 (Qfloor (segments params))).

Definition bars : Z := 96.

(** [t = j / (bars - 1)] *)
Definition barT (j : Z) : Q := inject_Z j / inject_Z (bars - 1).

(** [idx = Math.min(freqData.length - 1, Math.floor(t * freqData.length))] *)
Definition binIndex (len : Z) (t : Q) : Z :=
  Z.min (len - 1) (Qfloor (t * inject_Z len)).

(** [bin]: [0] without a buffer, else the cell at [idx] over 255.  A read
    outside the buffer gives [undefined] in the source; it cannot happen
    on a non-empty buffer, and the embedding reads [0] there. *)
Definition barBin (freqData : option (list byte)) (t : Q) : Q :=
  match freqData with
  | Some fd =>
      let idx := binIndex (Z.of_nat (length fd)) t in
      Js.byteQ (nth (Z.to_nat idx) fd x00) / 255
  | None => 0
  end.

(** [ctx.arc] raises on a negative radius. *)
Definition arc (radius : Q) : result unit :=
  if Qle_bool 0 radius then Ok tt else Throw IndexSizeError.

(** [ctx.createRadialGradient] raises when either radius is negative. *)
Definition createRadialGradient (r0 r1 : Q) : result unit :=
  if Qle_bool 0 r0 && Qle_bool 0 r1 then Ok tt else Throw IndexSizeError.

Section Render.

(** [Math.pow] is implementation-approximated; the embedding takes it as
    given and uses of it only what ECMAScript fixes. *)
Variable Math_pow : Q -> Q -> Q.

(** One radial bar of a wedge. *)
Definition drawBar (params : VisualParams) (freqData : option (list byte))
  (innerRadius maxRadius segAngle energy beatBoost : Q) (j : Z) : Bar :=
  let t := barT j in
  let localAngle := (t - 0.5) * segAngle in
  let bin := barBin freqData t in
  let mag := Math_pow bin 1.3 * sensitivity params in
  let r0 := innerRadius * (0.8 + energy * 0.4) in
  let r1 := r0 + (maxRadius - r0) * Qmin 1.0 (mag * (0.9 + beatBoost)) in
  {| bar_localAngle := localAngle;
     bar_bin := bin;
     bar_mag := mag;
     bar_r0 := r0;
     bar_r1 := r1;
     bar_glowWidth := Qmax 1 ((maxRadius - r0) * 0.004 + mag * 6);
     bar_coreWidth := 1.2 + mag * 3.5;
     bar_coreEnd := r1 * (0.98 + energy * 0.02) |}.

(** One wedge: rotation, optional mirror, clip, the bars, the nucleus. *)
Definition drawWedge (params : VisualParams) (st : State)
  (innerRadius maxRadius segAngle energy beatBoost : Q) (i : Z)
  : result Wedge :=
  let rotate := inject_Z i * segAngle + rotationRef st in
  let mirrored := mirror params && (Z.rem i 2 =? 1)%Z in
  _ <- arc maxRadius ;;
  let bs := map (drawBar params (freqDataRef st) innerRadius maxRadius
                   segAngle energy beatBoost) (Js.upto bars) in
  let nucleusR := innerRadius * (0.9 + energy * 0.6 + beatBoost * 0.5) in
  _ <- createRadialGradient (nucleusR * 0.2) nucleusR ;;
  _ <- arc nucleusR ;;
  Ok {| wedge_rotate := rotate;
        wedge_mirrored := mirrored;
        wedge_clipRadius := maxRadius;
        wedge_bars := bs;
        wedge_nucleusR := nucleusR |}.

(** The fields of a wedge that do not depend on its index. *)
Definition wedge_shape (params : VisualParams) (st : State)
  (innerRadius maxRadius segAngle energy beatBoost : Q) (w : Wedge) : Prop :=
  wedge_clipRadius w = maxRadius /\
  wedge_nucleusR w = innerRadius * (0.9 + energy * 0.6 + beatBoost * 0.5) /\
  wedge_bars w = map (drawBar params (freqDataRef st) innerRadius
                        maxRadius segAngle energy beatBoost) (Js.upto bars).

Definition minDimOf (canvas : Canvas) : Q :=
  Qmin (inject_Z (Z.of_N (width canvas))) (inject_Z (Z.of_N (height canvas))).

Definition innerRadiusOf (canvas : Canvas) : Q := minDimOf canvas * 0.06.
Definition maxRadiusOf (canvas : Canvas) : Q := minDimOf canvas * 0.48.

(** The second half of [draw]: the overlay, the colours and the wedges,
    from the state [advance] left. *)
Definition render (canvas : Canvas) (params : VisualParams) (st : State)
  (energy beatBoost : Q) : result Frame :=
  let innerRadius := innerRadiusOf canvas in
  let maxRadius := maxRadiusOf canvas in
  let segCount := segCountOf params in
  let segAngle := (Js.Math_PI * 2) / inject_Z segCount in
  let hue :=
    Js.rem (baseHue params + 360 * (energy * 0.5 + beatBoost * 0.6)) 360 in
  wedges <- forEach (drawWedge params st innerRadius maxRadius segAngle
                       energy beatBoost) (Js.upto segCount) ;;
  Ok {| fr_overlay := (inject_Z (Z.of_N (width canvas)),
                       inject_Z (Z.of_N (height canvas)));
        fr_energy := energy;
        fr_beatBoost := beatBoost;
        fr_segCount := segCount;
        fr_hue := hue;
        fr_lightness := Qmin 85 (65 + energy * 25);
        fr_glowAlpha := Qmin 0.6 (0.25 + bloom params);
        fr_wedges := wedges |}.

Definition draw (f : FrameIn) (st : State) : State * result Frame :=
  let '(st', (energy, beatBoost)) :=
    advance (fi_params f) st (fi_now f) (fi_data f) in
  (st', render (fi_canvas f) (fi_params f) st' energy beatBoost).

(** The animation loop over successive frames: [draw] asks for the next
    frame as its last statement, so an exception ends the loop. *)
Fixpoint runFrames (st : State) (fs : list FrameIn) : State :=
  match fs with
  | [] => st
  | f :: fs' =>
      match draw f st with
      | (st', Ok _) => runFrames st' fs'
      | (st', Throw _) => st'
      end
  end.

End Render.

(** ** Runs *)

(** The beat estimator alone, over the energies of successive frames:
    the rolling average and the peak of the last frame ([beatBoost] is [0]
    before any frame). *)
Definition beatRun (current : Q) (energies : list Q) : Q * Q :=
  fold_left (fun s e => beatUpdate (fst s) e) energies (current, 0).



(** Timestamps that never go back: each frame's [now] is at least the
    [lastTime] the previous frame (or the start of the loop) stored. *)
Fixpoint clockOrdered (t : Q) (fs : list FrameIn) : Prop :=
  match fs with
  | [] => True
  | f :: fs' => t <= fi_now f /\ clockOrdered (fi_now f) fs'
  end.

(** The states the component can be in: it mounts with empty refs, and
    from then on sources get connected, params change, the animation
    effect restarts and frames are drawn.  The properties of [draw] are
    stated over these states: there a bound buffer has at least 16 cells,
    so the division that defines the energy is by a positive length and
    stays within the numbers the embedding covers. *)
Inductive reachable : State -> Prop :=
| reach_mount (t0 : Q) :
    reachable (initialState t0)
| reach_connect (params : VisualParams) (st : State) :
    reachable st -> reachable (connectAnalyser params st)
| reach_update (params : VisualParams) (st : State) :
    reachable st -> reachable (updateAnalyser params st)
| reach_start (t : Q) (st : State) :
    reachable st -> reachable (startLoop t st)
| reach_draw (f : FrameIn) (st : State) :
    reachable st ->
    reachable (fst (advance (fi_params f) st (fi_now f) (fi_data f))).

(** What holds of the refs in every reachable state. *)
Record refs_ok (st : State) : Prop := mkRefsOk {
  ok_unbound : analyserRef st = None -> freqDataRef st = None;
  ok_bound : forall a, analyserRef st = Some a ->
    validFftSize (an_fftSize a) = true /\
    exists fd, freqDataRef st = Some fd /\
               length fd = Z.to_nat (frequencyBinCount a);
  ok_avg : 0 <= beatEnergyAvgRef st <= 1
}.

(** A rational stand-in for [Math.pow], to run the model on examples:
    exact at base [0] and at base [1]. *)
Definition pow_sample (x y : Q) : Q := if Qeq_bool x 0 then 0 else 1.

(** ** The beat update on binary64 *)

(** The rational [beatUpdate] above carries the properties that do not
    depend on rounding.  Where a statement is tight to the last bit, the
    same expressions on the engine's doubles decide. *)
Module B64.

Import PrimFloat.

(** [x || 0]: [0] and [NaN] are falsy. *)
Definition orZero (x : float) : float :=
  if (x =? 0)%float then 0%float
  else if (x =? x)%float then x else 0%float.

(** [Math.max(0, x)] on a number. *)
Definition max0 (x : float) : float :=
  if (0 <? x)%float then x else 0%float.

Definition beatUpdate (current energy : float) : float * float :=
  let prev := orZero current in
  let alpha := 0.9%float in
  let avg := (prev * alpha + energy * (1 - alpha))%float in
  let diff := max0 (energy - avg)%float in
  (avg, (diff * 2.2)%float).

(** [n] frames of the same energy, from a given average. *)
Fixpoint beatRun (n : nat) (current energy : float) : float * float :=
  match n with
  | O => (current, 0%float)
  | S n' => beatUpdate (fst (beatRun n' current energy)) energy
  end.

End B64.

(** ** The canvas size *)





(** ** The audio session: sources, buttons and controls *)

(** The handlers of the component are taken one at a time, each run to its
    end; what the browser decides (whether [audio.play()] resolves, whether
    the microphone is granted) comes in as an argument. *)

Definition SAMPLE_URL : String.string :=
  "https://cdn.pixabay.com/download/audio/2022/03/15/audio_7a2a190c41.mp3?filename=disco-130997.mp3"%string.

(** The two kinds of node [srcNodeRef] can hold. *)
Inductive SourceNode : Type :=
| MediaElementAudioSourceNode
| MediaStreamAudioSourceNode.

Inductive ContextState : Type :=
| Suspended
| Running.

(** How [await audio.play()] ends; a rejection leaves the element paused
    or not, as the browser had it. *)
Inductive PlayOutcome : Type :=
| PlayResolved
| PlayRejected (pausedAfter : bool).

(** Where a handler stops when a call raises or a promise rejects. *)
Inductive Rejection : Type :=
| PlayFailed
| MicrophoneDenied
| ElementAlreadyCaptured
| AnalyserRejected.

(** The React state of the component. *)
Record UiState : Type := mkUi {
  isPlaying : bool;
  usingMic : bool;
  usingSample : bool;
  fileName : String.string;
  ui_params : VisualParams
}.

(** The fields of the [Audio] element the handlers write. *)
Record AudioEl : Type := mkAudioEl {
  audio_src : String.string;
  audio_loop : bool;
  audio_paused : bool
}.

(** The audio graph as the handlers see it: the context, the node in
    [srcNodeRef], whether that node currently feeds an analyser, and
    whether the element already feeds a [MediaElementAudioSourceNode]
    (Web Audio lets an element be captured once:
    [createMediaElementSource] raises [InvalidStateError] on an element
    that was captured before). *)
Record Graph : Type := mkGraph {
  audioCtxRef : option ContextState;
  srcNodeRef : option SourceNode;
  srcConnected : bool;
  elementCaptured : bool
}.

Record Component : Type := mkComponent {
  ui : UiState;
  audioEl : AudioEl;
  graph : Graph;
  refs : State
}.

Definition mountComponent (t0 : Q) : Component :=
  {| ui := {| isPlaying := false; usingMic := false; usingSample := false;
              fileName := ""%string; ui_params := DEFAULT_PARAMS |};
     audioEl := {| audio_src := ""%string; audio_loop := false;
                   audio_paused := true |};
     graph := {| audioCtxRef := None; srcNodeRef := None;
                 srcConnected := false; elementCaptured := false |};
     refs := initialState t0 |}.

(** [ensureContext]: the context is created if there is none and resumed
    if it is suspended. *)
Definition ensureContext (g : Graph) : Graph :=
  {| audioCtxRef := Some Running;
     srcNodeRef := srcNodeRef g;
     srcConnected := srcConnected g;
     elementCaptured := elementCaptured g |}.

(** Whether the two assignments at the head of [connectAnalyser] pass. *)
Definition analyserAccepts (params : VisualParams) : bool :=
  validSmoothing (smoothing params) && validFftSize (fftSize params).

(** [srcNodeRef.current = node; connectAnalyser(node)], and then
    [setIsPlaying(true)] if nothing raised. *)
Definition bindSource (node : SourceNode) (captured : bool) (u : UiState)
  (a : AudioEl) (g : Graph) (r : State) : Component * option Rejection :=
  if analyserAccepts (ui_params u) then
    ({| ui := {| isPlaying := true; usingMic := usingMic u;
                 usingSample := usingSample u; fileName := fileName u;
                 ui_params := ui_params u |};
        audioEl := a;
        graph := {| audioCtxRef := audioCtxRef g; srcNodeRef := Some node;
                    srcConnected := true; elementCaptured := captured |};
        refs := connectAnalyser (ui_params u) r |},
     None)
  else
    ({| ui := u;
        audioEl := a;
        graph := {| audioCtxRef := audioCtxRef g; srcNodeRef := Some node;
                    srcConnected := false; elementCaptured := captured |};
        refs := r |},
     Some AnalyserRejected).

Definition playFromElement (src : String.string) (outcome : PlayOutcome)
  (c : Component) : Component * option Rejection :=
  let g := ensureContext (graph c) in
  let u := {| isPlaying := isPlaying (ui c); usingMic := false;
              usingSample := String.eqb src SAMPLE_URL;
              fileName := fileName (ui c); ui_params := ui_params (ui c) |} in
  match outcome with
  | PlayRejected pausedAfter =>
      ({| ui := u;
          audioEl := {| audio_src := src; audio_loop := true;
                        audio_paused := pausedAfter |};
          graph := g; refs := refs c |},
       Some PlayFailed)
  | PlayResolved =>
      let a := {| audio_src := src; audio_loop := true;
                  audio_paused := false |} in
      match srcNodeRef g with
      | Some MediaElementAudioSourceNode =>
          ({| ui := {| isPlaying := true; usingMic := usingMic u;
                       usingSample := usingSample u; fileName := fileName u;
                       ui_params := ui_params u |};
              audioEl := a; graph := g; refs := refs c |},
           None)
      | _ =>
          let g' := {| audioCtxRef := audioCtxRef g;
                       srcNodeRef := srcNodeRef g;
                       srcConnected := false;
                       elementCaptured := elementCaptured g |} in
          if elementCaptured g' then
            ({| ui := u; audioEl := a; graph := g'; refs := refs c |},
             Some ElementAlreadyCaptured)
          else
            bindSource MediaElementAudioSourceNode true u a g' (refs c)
      end
  end.

Definition startMic (granted : bool) (c : Component)
  : Component * option Rejection :=
  let g := ensureContext (graph c) in
  if granted then
    let u := {| isPlaying := isPlaying (ui c); usingMic := true;
                usingSample := false; fileName := fileName (ui c);
                ui_params := ui_params (ui c) |} in
    bindSource MediaStreamAudioSourceNode (elementCaptured g) u (audioEl c)
      g (refs c)
  else
    ({| ui := ui c; audioEl := audioEl c; graph := g; refs := refs c |},
     Some MicrophoneDenied).

Definition stopAudio (c : Component) : Component :=
  {| ui := {| isPlaying := false; usingMic := usingMic (ui c);
              usingSample := usingSample (ui c); fileName := fileName (ui c);
              ui_params := ui_params (ui c) |};
     audioEl := {| audio_src := audio_src (audioEl c);
                   audio_loop := audio_loop (audioEl c);
                   audio_paused := true |};
     graph := graph c; refs := refs c |}.

(** [onFilePicked]: the name is shown and the object URL is played. *)
Definition onFilePicked (name url : String.string) (outcome : PlayOutcome)
  (c : Component) : Component * option Rejection :=
  playFromElement url outcome
    {| ui := {| isPlaying := isPlaying (ui c); usingMic := usingMic (ui c);
                usingSample := usingSample (ui c); fileName := name;
                ui_params := ui_params (ui c) |};
       audioEl := audioEl c; graph := graph c; refs := refs c |}.

(** [audioElRef.current?.src || SAMPLE_URL] *)
Definition srcOrSample (a : AudioEl) : String.string :=
  if String.eqb (audio_src a) ""%string then SAMPLE_URL else audio_src a.

(** The Play/Pause button. *)
Definition onPlayClick (outcome : PlayOutcome) (c : Component)
  : Component * option Rejection :=
  if isPlaying (ui c) then (stopAudio c, None)
  else if usingMic (ui c) then (c, None)
  else playFromElement
         (if usingSample (ui c) then SAMPLE_URL else srcOrSample (audioEl c))
         outcome c.

(** A control changes [params]: the analyser effect runs if the smoothing
    or the transform size changed, and the animation effect starts again. *)
Definition setParams (p : VisualParams) (t : Q) (c : Component) : Component :=
  let old := ui_params (ui c) in
  let changed := negb (Qeq_bool (smoothing old) (smoothing p)
                       && (fftSize old =? fftSize p)%Z) in
  {| ui := {| isPlaying := isPlaying (ui c); usingMic := usingMic (ui c);
              usingSample := usingSample (ui c); fileName := fileName (ui c);
              ui_params := p |};
     audioEl := audioEl c; graph := graph c;
     refs := startLoop t
               (if changed then updateAnalyser p (refs c) else refs c) |}.

(** One animation frame of the mounted component: what [draw] does to the
    refs, with the params of the current render. *)
Definition onFrame (now : Q) (data : list byte) (c : Component) : Component :=
  {| ui := ui c; audioEl := audioEl c; graph := graph c;
     refs := fst (advance (ui_params (ui c)) (refs c) now data) |}.

(** The values the controls can produce for the two analyser settings. *)
Definition controlValues (p : VisualParams) : Prop :=
  In (fftSize p) [256; 512; 1024; 2048; 4096; 8192]%Z /\
  0 <= smoothing p <= 0.95.

(** [URL.createObjectURL] returns a [blob:] URL. *)
Definition objectURL (url : String.string) : Prop :=
  String.prefix "blob:"%string url = true.

(** The states of the whole component: mounted, then any sequence of
    button presses (Play/Pause, Load Sample, Mic), file picks, control
    changes and frames, each handled to its end before the next one
    arrives.  An event that arrives while a handler is still awaiting the
    browser ([audio.play()], [getUserMedia]) is not covered. *)
Inductive live : Component -> Prop :=
| live_mount (t0 : Q) :
    live (mountComponent t0)
| live_click (outcome : PlayOutcome) (c : Component) :
    live c -> live (fst (onPlayClick outcome c))
| live_sample (outcome : PlayOutcome) (c : Component) :
    live c -> live (fst (playFromElement SAMPLE_URL outcome c))
| live_mic (granted : bool) (c : Component) :
    live c -> live (fst (startMic granted c))
| live_file (name url : String.string) (outcome : PlayOutcome)
    (c : Component) :
    live c -> objectURL url -> live (fst (onFilePicked name url outcome c))
| live_params (p : VisualParams) (t : Q) (c : Component) :
    live c -> controlValues p -> live (setParams p t c)
| live_frame (now : Q) (data : list byte) (c : Component) :
    live c -> live (onFrame now data c).


(** What holds of the component in every such state. *)
Record live_ok (c : Component) : Prop := mkLiveOk {
  lk_modes : usingMic (ui c) && usingSample (ui c) = false;
  lk_mic : usingMic (ui c) = true ->
           srcNodeRef (graph c) = Some MediaStreamAudioSourceNode /\
           srcConnected (graph c) = true;
  lk_sample : usingMic (ui c) = false ->
              usingSample (ui c)
              = String.eqb (audio_src (audioEl c)) SAMPLE_URL;
  lk_element : srcNodeRef (graph c) = Some MediaElementAudioSourceNode ->
               elementCaptured (graph c) = true;
  lk_captured : elementCaptured (graph c) = true ->
                audio_src (audioEl c) <> ""%string /\
                srcNodeRef (graph c) <> None;
  lk_context : srcNodeRef (graph c) <> None ->
               audioCtxRef (graph c) = Some Running;
  lk_playing : isPlaying (ui c) = true -> srcNodeRef (graph c) <> None;
  lk_controls : controlValues (ui_params (ui c));
  lk_refs : reachable (refs c);
  lk_bound : srcNodeRef (graph c) <> None <-> analyserRef (refs c) <> None;
  lk_settings : forall a, analyserRef (refs c) = Some a ->
                smoothingTimeConstant a == smoothing (ui_params (ui c)) /\
                an_fftSize a = fftSize (ui_params (ui c))
}.

(** ** Sample inputs *)

(** The default params with the smallest transform the analyser accepts
    (16 bins). *)
Definition smallParams : VisualParams :=
  {| segments := segments DEFAULT_PARAMS;
     rotationSpeed := rotationSpeed DEFAULT_PARAMS;
     sensitivity := sensitivity DEFAULT_PARAMS;
     bloom := bloom DEFAULT_PARAMS;
     smoothing := smoothing DEFAULT_PARAMS;
     fftSize := 32;
     baseHue := baseHue DEFAULT_PARAMS;
     mirror := mirror DEFAULT_PARAMS |}.

Definition sampleCanvas : Canvas := {| width := 800; height := 600 |}.

(** A canvas laid out with no width. *)
Definition flatCanvas : Canvas := {| width := 0; height := 600 |}.

(** The component right after mounting, the loop started at time 1000. *)
Definition mounted : State := initialState 1000.

(** The same with a source connected. *)
Definition connected : State := connectAnalyser smallParams mounted.

Definition silentData : list byte := repeat x00 16.
Definition loudData : list byte := repeat xff 16.

(** * Properties *)

(** ** Arithmetic of the helpers *)

Lemma orZero_eq (x : Q) : Js.orZero x == x.
Proof.
  unfold Js.orZero. destruct (Qeq_bool x 0) eqn:E; [|reflexivity].
  apply Qeq_bool_iff in E. symmetry. exact E.
Qed.

Lemma byteQ_range (b : byte) : 0 <= Js.byteQ b <= 255.
Proof.
  unfold Js.byteQ. pose proof (Byte.to_N_bounded b) as Hb.
  split.
  - change 0 with (inject_Z 0). rewrite <- Zle_Qle. lia.
  - change 255 with (inject_Z 255). rewrite <- Zle_Qle. lia.
Qed.

Lemma fold_sum_shift (l : list byte) (s : Q) :
  fold_left (fun sum b => sum + Js.byteQ b) l s == s + sumOf l.
Proof.
  unfold sumOf. revert s.
  induction l as [|b l IH]; intro s; simpl.
  - lra.
  - rewrite (IH (s + Js.byteQ b)), (IH (0 + Js.byteQ b)). lra.
Qed.

Lemma sumOf_cons (b : byte) (l : list byte) :
  sumOf (b :: l) == Js.byteQ b + sumOf l.
Proof.
  unfold sumOf at 1. simpl. rewrite fold_sum_shift. lra.
Qed.

Lemma sumOf_range (l : list byte) :
  0 <= sumOf l <= 255 * inject_Z (Z.of_nat (length l)).
Proof.
  induction l as [|b l IH].
  - unfold sumOf. simpl. split; discriminate.
  - rewrite sumOf_cons. pose proof (byteQ_range b) as Hb.
    replace (Z.of_nat (length (b :: l))) with (1 + Z.of_nat (length l))%Z
      by (simpl length; lia).
    rewrite inject_Z_plus. change (inject_Z 1) with 1. lra.
Qed.

(** The energy of any buffer is a number in [0, 1]. *)
Lemma energyOf_range (fd : list byte) : 0 <= energyOf fd <= 1.
Proof.
  unfold energyOf. pose proof (sumOf_range fd) as Hs.
  destruct fd as [|b l].
  - split; vm_compute; discriminate.
  - set (n := inject_Z (Z.of_nat (length (b :: l)))) in *.
    assert (Hn : 0 < n).
    { unfold n. change 0 with (inject_Z 0). rewrite <- Zlt_Qlt.
      simpl length. lia. }
    split.
    + apply Qle_shift_div_l; [lra|]. apply Qle_shift_div_l; [lra|]. lra.
    + apply Qle_shift_div_r; [lra|]. apply Qle_shift_div_r; [lra|]. lra.
Qed.

(** ** The beat estimator *)

Lemma beatUpdate_avg (current energy : Q) :
  fst (beatUpdate current energy) == current * alpha + energy * (1 - alpha).
Proof.
  unfold beatUpdate. simpl. rewrite orZero_eq. reflexivity.
Qed.

Lemma beatUpdate_peak (current energy : Q) :
  snd (beatUpdate current energy)
  == Qmax 0 (energy - fst (beatUpdate current energy)) * 2.2.
Proof.
  unfold beatUpdate. simpl. reflexivity.
Qed.

Lemma beatUpdate_peak_nonneg (current energy : Q) :
  0 <= snd (beatUpdate current energy).
Proof.
  rewrite beatUpdate_peak.
  pose proof (Q.le_max_l 0 (energy - fst (beatUpdate current energy))).
  lra.
Qed.

Lemma beatUpdate_avg_range (current energy : Q) :
  0 <= current <= 1 -> 0 <= energy <= 1 ->
  0 <= fst (beatUpdate current energy) <= 1.
Proof.
  intros Hc He. rewrite beatUpdate_avg. unfold alpha. lra.
Qed.

Lemma beatRun_snoc (current : Q) (es : list Q) (e : Q) :
  beatRun current (es ++ [e]) = beatUpdate (fst (beatRun current es)) e.
Proof.
  unfold beatRun. rewrite fold_left_app. reflexivity.
Qed.

Lemma beatRun_avg_range (current : Q) (es : list Q) :
  0 <= current <= 1 -> Forall (fun e => 0 <= e <= 1) es ->
  0 <= fst (beatRun current es) <= 1.
Proof.
  intros Hc. induction es as [|e es IH] using rev_ind; intro Hes.
  - exact Hc.
  - apply Forall_app in Hes. destruct Hes as [Hes He].
    rewrite beatRun_snoc. apply beatUpdate_avg_range.
    + apply IH. exact Hes.
    + inversion He; subst. assumption.
Qed.








(** ** The refs in reachable states *)

Lemma getByteFrequencyData_length (data buf : list byte) :
  length (getByteFrequencyData data buf) = length buf.
Proof.
  unfold getByteFrequencyData.
  rewrite length_app, length_firstn, length_skipn. lia.
Qed.

Lemma newUint8Array_length (n : Z) : length (newUint8Array n) = Z.to_nat n.
Proof. unfold newUint8Array. apply repeat_length. Qed.

Lemma refs_ok_mount (t0 : Q) : refs_ok (initialState t0).
Proof.
  constructor; simpl.
  - reflexivity.
  - discriminate.
  - split; discriminate.
Qed.

Lemma refs_ok_connect (params : VisualParams) (st : State) :
  refs_ok st -> refs_ok (connectAnalyser params st).
Proof.
  intros H. pose proof H as [Hu Hb Ha]. unfold connectAnalyser.
  destruct (validSmoothing (smoothing params) && validFftSize (fftSize params))
    eqn:E.
  - apply andb_prop in E. destruct E as [_ Ef].
    constructor; simpl.
    + discriminate.
    + intros a [= <-]. simpl. split; [exact Ef|].
      eexists. split; [reflexivity|]. apply newUint8Array_length.
    + exact Ha.
  - exact H.
Qed.

Lemma refs_ok_update (params : VisualParams) (st : State) :
  refs_ok st -> refs_ok (updateAnalyser params st).
Proof.
  intros H. pose proof H as [Hu Hb Ha]. unfold updateAnalyser.
  destruct (analyserRef st) as [analyser|] eqn:Ea; [|exact H].
  destruct (Hb analyser eq_refl) as [Hv [fd [Hfd Hlen]]].
  destruct (validSmoothing (smoothing params)); [|exact H].
  destruct (an_fftSize analyser =? fftSize params)%Z eqn:Eq.
  - constructor; simpl; [discriminate | | exact Ha].
    intros a [= <-]. simpl. split; [exact Hv|]. exists fd. split; assumption.
  - destruct (validFftSize (fftSize params)) eqn:Ev.
    + constructor; simpl; [discriminate | | exact Ha].
      intros a [= <-]. simpl. split; [exact Ev|].
      eexists. split; [reflexivity|]. apply newUint8Array_length.
    + constructor; simpl; [discriminate | | exact Ha].
      intros a [= <-]. simpl. split; [exact Hv|]. exists fd. split; assumption.
Qed.

Lemma refs_ok_start (t : Q) (st : State) : refs_ok st -> refs_ok (startLoop t st).
Proof. intros [Hu Hb Ha]. constructor; simpl; assumption. Qed.

Lemma refs_ok_advance (params : VisualParams) (st : State) (now : Q)
  (data : list byte) :
  refs_ok st -> refs_ok (fst (advance params st now data)).
Proof.
  intros [Hu Hb Ha]. unfold advance.
  destruct (analyserRef st) as [analyser|] eqn:Ea.
  - destruct (Hb analyser eq_refl) as [Hv [fd [Hfd Hlen]]].
    rewrite Hfd.
    destruct (beatUpdate (beatEnergyAvgRef st)
                (energyOf (getByteFrequencyData data fd))) as [avg boost] eqn:Eb.
    constructor; simpl.
    + discriminate.
    + intros a [= <-]. split; [exact Hv|].
      eexists. split; [reflexivity|].
      rewrite getByteFrequencyData_length. exact Hlen.
    + change avg with (fst (avg, boost)). rewrite <- Eb.
      apply beatUpdate_avg_range; [exact Ha | apply energyOf_range].
  - constructor; simpl.
    + intros _. apply Hu. reflexivity.
    + discriminate.
    + exact Ha.
Qed.

Lemma reachable_refs_ok (st : State) : reachable st -> refs_ok st.
Proof.
  induction 1.
  - apply refs_ok_mount.
  - apply refs_ok_connect; assumption.
  - apply refs_ok_update; assumption.
  - apply refs_ok_start; assumption.
  - apply refs_ok_advance; assumption.
Qed.

(** In a reachable state a bound buffer is never empty. *)
Lemma reachable_buffer_nonempty (st : State) (fd : list byte) :
  reachable st -> analyserRef st <> None -> freqDataRef st = Some fd ->
  (16 <= length fd)%nat.
Proof.
  intros Hr Ha Hfd. destruct (reachable_refs_ok st Hr) as [_ Hb _].
  destruct (analyserRef st) as [a|]; [|congruence].
  destruct (Hb a eq_refl) as [Hv [fd' [Hfd' Hlen]]].
  assert (fd' = fd) by congruence. subst fd'.
  rewrite Hlen. unfold frequencyBinCount, validFftSize in *. simpl in Hv.
  repeat (apply orb_prop in Hv; destruct Hv as [Hv|Hv];
          [apply Z.eqb_eq in Hv; rewrite Hv; vm_compute; lia|]).
  discriminate.
Qed.

(** ** The segment count and the spectrum index *)

Lemma segCountOf_range (params : VisualParams) : (2 <= segCountOf params <= 48)%Z.
Proof. unfold segCountOf. lia. Qed.

Lemma upto_length (n : Z) : length (Js.upto n) = Z.to_nat n.
Proof. unfold Js.upto. rewrite length_map, length_seq. reflexivity. Qed.

Lemma upto_range (n j : Z) : In j (Js.upto n) -> (0 <= j < n)%Z.
Proof.
  unfold Js.upto. rewrite in_map_iff. intros [k [<- Hk]].
  apply in_seq in Hk. lia.
Qed.

Lemma floor_scaled_nonneg (len : Z) (t : Q) :
  (0 < len)%Z -> 0 <= t -> (0 <= Qfloor (t * inject_Z len))%Z.
Proof.
  intros Hlen Ht. rewrite <- (Qfloor_Z 0). apply Qfloor_resp_le.
  apply Qmult_le_0_compat; [exact Ht|].
  change 0 with (inject_Z 0). rewrite <- Zle_Qle. lia.
Qed.

Lemma floor_scaled_below (len : Z) (t : Q) :
  (0 < len)%Z -> t < 1 -> (Qfloor (t * inject_Z len) <= len - 1)%Z.
Proof.
  intros Hlen Ht.
  assert (H : inject_Z (Qfloor (t * inject_Z len)) < inject_Z len).
  { apply Qle_lt_trans with (t * inject_Z len); [apply Qfloor_le|].
    assert (0 < inject_Z len)
      by (change 0 with (inject_Z 0); rewrite <- Zlt_Qlt; lia).
    nra. }
  rewrite <- Zlt_Qlt in H. lia.
Qed.

Lemma floor_scaled_one (len : Z) (t : Q) :
  t == 1 -> Qfloor (t * inject_Z len) = len.
Proof.
  intros Ht. rewrite Ht, Qmult_1_l. apply Qfloor_Z.
Qed.

Lemma barT_range (j : Z) : (0 <= j < bars)%Z -> 0 <= barT j <= 1.
Proof.
  intros Hj. unfold barT, bars in *. change (inject_Z (96 - 1)) with 95.
  assert (0 <= inject_Z j)
    by (change 0 with (inject_Z 0); rewrite <- Zle_Qle; lia).
  assert (inject_Z j <= 95)
    by (change 95 with (inject_Z 95); rewrite <- Zle_Qle; lia).
  split.
  - apply Qle_shift_div_l; [reflexivity | lra].
  - apply Qle_shift_div_r; [reflexivity | lra].
Qed.

(** ** [draw] raises nothing *)

Lemma arc_ok (radius : Q) : 0 <= radius -> arc radius = Ok tt.
Proof.
  intro H. unfold arc. apply Qle_bool_iff in H. rewrite H. reflexivity.
Qed.

Lemma createRadialGradient_ok (r0 r1 : Q) :
  0 <= r0 -> 0 <= r1 -> createRadialGradient r0 r1 = Ok tt.
Proof.
  intros H0 H1. unfold createRadialGradient.
  apply Qle_bool_iff in H0, H1. rewrite H0, H1. reflexivity.
Qed.

Lemma forEach_ok {A B : Type} (body : A -> result B) (P : B -> Prop)
  (l : list A) :
  (forall a, In a l -> exists b, body a = Ok b /\ P b) ->
  exists bs, forEach body l = Ok bs /\ length bs = length l /\ Forall P bs.
Proof.
  induction l as [|a l IH]; intro H.
  - exists []. simpl. auto.
  - destruct (H a (or_introl eq_refl)) as [b [Hb HP]].
    destruct IH as [bs [Hbs [Hlen HF]]].
    { intros a' Ha'. apply H. right. exact Ha'. }
    exists (b :: bs). simpl. rewrite Hb. simpl. rewrite Hbs. simpl.
    auto.
Qed.

Lemma minDimOf_nonneg (canvas : Canvas) : 0 <= minDimOf canvas.
Proof.
  unfold minDimOf. apply Q.min_glb;
    change 0 with (inject_Z 0); rewrite <- Zle_Qle; lia.
Qed.

Lemma minDimOf_degenerate (canvas : Canvas) :
  width canvas = 0%N \/ height canvas = 0%N -> minDimOf canvas == 0.
Proof.
  intros H. apply Qle_antisym; [|apply minDimOf_nonneg].
  unfold minDimOf. destruct H as [H|H]; rewrite H.
  - apply Q.le_min_l.
  - apply Q.le_min_r.
Qed.

Lemma advance_features_nonneg (params : VisualParams) (st : State) (now : Q)
  (data : list byte) :
  0 <= fst (snd (advance params st now data)) /\
  0 <= snd (snd (advance params st now data)).
Proof.
  unfold advance.
  destruct (analyserRef st) as [a|]; [|simpl; split; apply Qle_refl].
  destruct (freqDataRef st) as [fd|]; [|simpl; split; apply Qle_refl].
  pose proof (beatUpdate_peak_nonneg (beatEnergyAvgRef st)
                (energyOf (getByteFrequencyData data fd))) as Hp.
  destruct (beatUpdate _ _) as [avg boost]. simpl in *.
  split; [apply energyOf_range | exact Hp].
Qed.

Section RenderProperties.

Variable Math_pow : Q -> Q -> Q.

Lemma drawWedge_ok (params : VisualParams) (st : State)
  (innerRadius maxRadius segAngle energy beatBoost : Q) (i : Z) :
  0 <= innerRadius -> 0 <= maxRadius -> 0 <= energy -> 0 <= beatBoost ->
  exists w,
    drawWedge Math_pow params st innerRadius maxRadius segAngle energy
      beatBoost i = Ok w /\
    wedge_shape Math_pow params st innerRadius maxRadius segAngle energy beatBoost w.
Proof.
  intros Hi Hm He Hb. unfold drawWedge.
  assert (Hn : 0 <= innerRadius * (0.9 + energy * 0.6 + beatBoost * 0.5))
    by nra.
  rewrite (arc_ok _ Hm). simpl.
  rewrite createRadialGradient_ok by lra. simpl.
  rewrite (arc_ok _ Hn). simpl.
  eexists. split; [reflexivity|]. repeat split.
Qed.

Lemma render_ok (canvas : Canvas) (params : VisualParams) (st : State)
  (energy beatBoost : Q) :
  0 <= energy -> 0 <= beatBoost ->
  exists fr,
    render Math_pow canvas params st energy beatBoost = Ok fr /\
    fr_energy fr = energy /\ fr_beatBoost fr = beatBoost /\
    fr_segCount fr = segCountOf params /\
    length (fr_wedges fr) = Z.to_nat (segCountOf params) /\
    Forall (wedge_shape Math_pow params st (innerRadiusOf canvas) (maxRadiusOf canvas)
              (Js.Math_PI * 2 / inject_Z (segCountOf params)) energy beatBoost)
      (fr_wedges fr).
Proof.
  intros He Hb. unfold render.
  pose proof (minDimOf_nonneg canvas) as Hd.
  assert (Hi : 0 <= innerRadiusOf canvas) by (unfold innerRadiusOf; lra).
  assert (Hm : 0 <= maxRadiusOf canvas) by (unfold maxRadiusOf; lra).
  destruct (forEach_ok
              (drawWedge Math_pow params st (innerRadiusOf canvas)
                 (maxRadiusOf canvas)
                 (Js.Math_PI * 2 / inject_Z (segCountOf params)) energy
                 beatBoost)
              (wedge_shape Math_pow params st (innerRadiusOf canvas)
                 (maxRadiusOf canvas)
                 (Js.Math_PI * 2 / inject_Z (segCountOf params)) energy
                 beatBoost)
              (Js.upto (segCountOf params))) as [ws [Hws [Hlen HF]]].
  { intros i _. apply drawWedge_ok; assumption. }
  rewrite Hws. simpl. eexists. split; [reflexivity|]. simpl.
  rewrite Hlen, upto_length. auto.
Qed.

End RenderProperties.

(** ** One frame, and runs of frames *)

Lemma frameDt_nonneg (lastT now : Q) : lastT <= now -> 0 <= frameDt lastT now.
Proof.
  intro H. unfold frameDt. apply Q.min_glb; [discriminate|].
  apply Qle_shift_div_l; [reflexivity | lra].
Qed.

Lemma advance_lastTime (params : VisualParams) (st : State) (now : Q)
  (data : list byte) :
  lastTime (fst (advance params st now data)) = now.
Proof.
  unfold advance.
  destruct (analyserRef st); [|reflexivity].
  destruct (freqDataRef st); [|reflexivity].
  destruct (beatUpdate _ _). reflexivity.
Qed.

(** The rotation after a frame, in terms of the features of that frame. *)
Lemma advance_rotation (params : VisualParams) (st : State) (now : Q)
  (data : list byte) :
  rotationRef (fst (advance params st now data))
  == rotationRef st
     + (rotationSpeed params + snd (snd (advance params st now data)) * 0.8)
       * frameDt (lastTime st) now.
Proof.
  unfold advance.
  destruct (analyserRef st); [|reflexivity].
  destruct (freqDataRef st); [|reflexivity].
  destruct (beatUpdate _ _). reflexivity.
Qed.

Lemma advance_rotation_le (params : VisualParams) (st : State) (now : Q)
  (data : list byte) :
  0 <= rotationSpeed params -> lastTime st <= now ->
  rotationRef st <= rotationRef (fst (advance params st now data)).
Proof.
  intros Hs Ht. rewrite advance_rotation.
  pose proof (frameDt_nonneg _ _ Ht) as Hdt.
  destruct (advance_features_nonneg params st now data) as [_ Hb].
  set (boost := snd (snd (advance params st now data))) in *.
  set (dt := frameDt (lastTime st) now) in *.
  nra.
Qed.

Section FrameProperties.

Variable Math_pow : Q -> Q -> Q.

Lemma draw_eq (f : FrameIn) (st : State) :
  draw Math_pow f st
  = (fst (advance (fi_params f) st (fi_now f) (fi_data f)),
     render Math_pow (fi_canvas f) (fi_params f)
       (fst (advance (fi_params f) st (fi_now f) (fi_data f)))
       (fst (snd (advance (fi_params f) st (fi_now f) (fi_data f))))
       (snd (snd (advance (fi_params f) st (fi_now f) (fi_data f))))).
Proof.
  unfold draw.
  destruct (advance (fi_params f) st (fi_now f) (fi_data f))
    as [st' [energy beatBoost]].
  reflexivity.
Qed.

(** Every call of [draw] returns a frame: no canvas call raises. *)
Lemma draw_ok (f : FrameIn) (st : State) :
  let adv := advance (fi_params f) st (fi_now f) (fi_data f) in
  exists fr,
    draw Math_pow f st = (fst adv, Ok fr) /\
    fr_energy fr = fst (snd adv) /\ fr_beatBoost fr = snd (snd adv) /\
    fr_segCount fr = segCountOf (fi_params f) /\
    length (fr_wedges fr) = Z.to_nat (segCountOf (fi_params f)) /\
    Forall (wedge_shape Math_pow (fi_params f) (fst adv)
              (innerRadiusOf (fi_canvas f)) (maxRadiusOf (fi_canvas f))
              (Js.Math_PI * 2 / inject_Z (segCountOf (fi_params f)))
              (fst (snd adv)) (snd (snd adv)))
      (fr_wedges fr).
Proof.
  intro adv. rewrite draw_eq. fold adv.
  destruct (advance_features_nonneg (fi_params f) st (fi_now f) (fi_data f))
    as [He Hb].
  fold adv in He, Hb.
  destruct (render_ok Math_pow (fi_canvas f) (fi_params f) (fst adv)
              (fst (snd adv)) (snd (snd adv)) He Hb) as [fr [Hr Hrest]].
  exists fr. rewrite Hr. split; [reflexivity | exact Hrest].
Qed.

Lemma runFrames_cons (st : State) (f : FrameIn) (fs : list FrameIn) :
  runFrames Math_pow st (f :: fs)
  = runFrames Math_pow
      (fst (advance (fi_params f) st (fi_now f) (fi_data f))) fs.
Proof.
  destruct (draw_ok f st) as [fr [Hd _]].
  simpl. rewrite Hd. reflexivity.
Qed.

Lemma runFrames_app (st : State) (fs1 fs2 : list FrameIn) :
  runFrames Math_pow st (fs1 ++ fs2)
  = runFrames Math_pow (runFrames Math_pow st fs1) fs2.
Proof.
  revert st. induction fs1 as [|f fs1 IH]; intro st.
  - reflexivity.
  - rewrite <- app_comm_cons, !runFrames_cons. apply IH.
Qed.

Lemma runFrames_rotation_le (st : State) (fs : list FrameIn) :
  Forall (fun f => 0 <= rotationSpeed (fi_params f)) fs ->
  clockOrdered (lastTime st) fs ->
  rotationRef st <= rotationRef (runFrames Math_pow st fs).
Proof.
  revert st. induction fs as [|f fs IH]; intros st Hs Hc.
  - apply Qle_refl.
  - rewrite runFrames_cons. destruct Hc as [Ht Hc].
    pose proof (Forall_inv Hs) as Hf. cbv beta in Hf.
    apply Qle_trans
      with (rotationRef (fst (advance (fi_params f) st (fi_now f) (fi_data f)))).
    + apply advance_rotation_le; assumption.
    + apply IH.
      * exact (Forall_inv_tail Hs).
      * rewrite advance_lastTime. exact Hc.
Qed.

Lemma clockOrdered_split (st : State) (fs1 fs2 : list FrameIn) :
  clockOrdered (lastTime st) (fs1 ++ fs2) ->
  clockOrdered (lastTime st) fs1 /\
  clockOrdered (lastTime (runFrames Math_pow st fs1)) fs2.
Proof.
  revert st. induction fs1 as [|f fs1 IH]; intros st Hc.
  - simpl in *. auto.
  - rewrite runFrames_cons. rewrite <- app_comm_cons in Hc.
    destruct Hc as [Ht Hc].
    rewrite <- (advance_lastTime (fi_params f) st (fi_now f) (fi_data f)) in Hc.
    destruct (IH _ Hc) as [H1 H2].
    rewrite advance_lastTime in H1.
    split; [split; assumption | exact H2].
Qed.

End FrameProperties.

(** ** Bars without spectral contribution *)

Lemma byteQ_zero_cell (fd : list byte) (k : nat) :
  Forall (fun b => b = x00) fd -> Js.byteQ (nth k fd x00) / 255 == 0.
Proof.
  intro H.
  assert (Hn : nth k fd x00 = x00).
  { destruct (nth_in_or_default k fd x00) as [Hin|Hd]; [|exact Hd].
    rewrite Forall_forall in H. apply H. exact Hin. }
  rewrite Hn. reflexivity.
Qed.

Lemma sumOf_zero (fd : list byte) :
  Forall (fun b => b = x00) fd -> sumOf fd == 0.
Proof.
  induction 1 as [|b l Hb _ IH].
  - reflexivity.
  - rewrite sumOf_cons, IH, Hb. reflexivity.
Qed.

Lemma energyOf_zero (fd : list byte) :
  Forall (fun b => b = x00) fd -> energyOf fd == 0.
Proof.
  intro H. unfold energyOf. rewrite (sumOf_zero fd H).
  unfold Qdiv. rewrite !Qmult_0_l. reflexivity.
Qed.

Lemma barBin_silent (freqData : option (list byte)) (t : Q) :
  (forall fd, freqData = Some fd -> Forall (fun b => b = x00) fd) ->
  barBin freqData t == 0.
Proof.
  intro H. unfold barBin. destruct freqData as [fd|]; [|reflexivity].
  apply byteQ_zero_cell. apply H. reflexivity.
Qed.

Section BarProperties.

Variable Math_pow : Q -> Q -> Q.

(** ECMAScript: [Math.pow(+0, y)] is [+0] for [y > 0]. *)
Hypothesis Math_pow_zero : forall x y : Q, x == 0 -> 0 < y -> Math_pow x y == 0.

Lemma drawBar_silent (params : VisualParams) (freqData : option (list byte))
  (innerRadius maxRadius segAngle energy beatBoost : Q) (j : Z) :
  barBin freqData (barT j) == 0 ->
  let b := drawBar Math_pow params freqData innerRadius maxRadius segAngle
             energy beatBoost j in
  bar_bin b == 0 /\ bar_mag b == 0 /\ bar_r1 b == bar_r0 b.
Proof.
  intros Hbin b. unfold b, drawBar. cbn [bar_bin bar_mag bar_r0 bar_r1].
  assert (Hmag : Math_pow (barBin freqData (barT j)) 1.3 * sensitivity params
                 == 0).
  { rewrite (Math_pow_zero _ 1.3 Hbin) by reflexivity. apply Qmult_0_l. }
  split; [exact Hbin|]. split; [exact Hmag|].
  rewrite Hmag, Qmult_0_l.
  rewrite Q.min_r by discriminate.
  rewrite Qmult_0_r. apply Qplus_0_r.
Qed.

End BarProperties.

Lemma drawBar_degenerate (Math_pow : Q -> Q -> Q) (params : VisualParams)
  (freqData : option (list byte))
  (innerRadius maxRadius segAngle energy beatBoost : Q) (j : Z) :
  innerRadius == 0 -> maxRadius == 0 ->
  let b := drawBar Math_pow params freqData innerRadius maxRadius segAngle
             energy beatBoost j in
  bar_r0 b == 0 /\ bar_r1 b == 0 /\ bar_coreEnd b == 0.
Proof.
  intros Hi Hm b. unfold b, drawBar. cbn [bar_r0 bar_r1 bar_coreEnd].
  rewrite Hi, Hm.
  assert (H0 : 0 * (0.8 + energy * 0.4) == 0) by apply Qmult_0_l.
  rewrite H0.
  repeat split; ring.
Qed.

(** ** [advance] with and without a bound analyser *)

Lemma advance_bound (params : VisualParams) (st : State) (now : Q)
  (data : list byte) (a : AnalyserNode) (fd : list byte) :
  analyserRef st = Some a -> freqDataRef st = Some fd ->
  let fd' := getByteFrequencyData data fd in
  let adv := advance params st now data in
  analyserRef (fst adv) = Some a /\
  freqDataRef (fst adv) = Some fd' /\
  beatEnergyAvgRef (fst adv)
  = fst (beatUpdate (beatEnergyAvgRef st) (energyOf fd')) /\
  fst (snd adv) = energyOf fd' /\
  snd (snd adv) = snd (beatUpdate (beatEnergyAvgRef st) (energyOf fd')).
Proof.
  intros Ha Hfd fd' adv. unfold adv, advance. rewrite Ha, Hfd. fold fd'.
  destruct (beatUpdate (beatEnergyAvgRef st) (energyOf fd')) as [avg boost].
  simpl. auto.
Qed.

Lemma advance_unbound (params : VisualParams) (st : State) (now : Q)
  (data : list byte) :
  analyserRef st = None ->
  let adv := advance params st now data in
  analyserRef (fst adv) = None /\
  freqDataRef (fst adv) = freqDataRef st /\
  beatEnergyAvgRef (fst adv) = beatEnergyAvgRef st /\
  snd adv = (0, 0).
Proof.
  intros Ha adv. unfold adv, advance. rewrite Ha. simpl. auto.
Qed.

(** * The claims *)

(** C9. The rolling average stays in [0, 1]: starting from [0], after
    every number of updates with energies in [0, 1] it is in [0, 1]; and
    so is [beatEnergyAvgRef] in every state the component reaches. *)
Theorem rolling_average_in_unit_interval (energies : list Q) (k : nat) :
  Forall (fun e => 0 <= e <= 1) energies ->
  0 <= fst (beatRun 0 (firstn k energies)) <= 1 /\
  forall st, reachable st -> 0 <= beatEnergyAvgRef st <= 1.
Proof.
  intro H. split.
  - apply beatRun_avg_range.
    + split; discriminate.
    + rewrite <- (firstn_skipn k energies) in H.
      apply Forall_app in H. apply H.
  - intros st Hr. apply (ok_avg st). apply reachable_refs_ok. exact Hr.
Qed.

Lemma rolling_average_in_unit_interval_witness :
  0 <= fst (beatRun 0 (firstn 2 [1; 0.25; 0])) <= 1 /\
  forall st, reachable st -> 0 <= beatEnergyAvgRef st <= 1.
Proof.
  apply (rolling_average_in_unit_interval [1; 0.25; 0] 2).
  repeat constructor; discriminate.
Defined.

(** C5. When a frame of energy [0] is followed by a frame of energy [1],
    the peak computed on the second frame is strictly positive. *)
Theorem peak_positive_on_jump (st : State) (f0 f1 : FrameIn) :
  reachable st ->
  let adv0 := advance (fi_params f0) st (fi_now f0) (fi_data f0) in
  let adv1 := advance (fi_params f1) (fst adv0) (fi_now f1) (fi_data f1) in
  fst (snd adv0) == 0 -> fst (snd adv1) == 1 ->
  0 < snd (snd adv1).
Proof.
  intros Hr adv0 adv1 H0 H1.
  pose proof (reachable_refs_ok st Hr) as [Hu Hb Ha].
  destruct (analyserRef st) as [a|] eqn:Ea.
  - destruct (Hb a eq_refl) as [_ [fd [Hfd _]]].
    destruct (advance_bound (fi_params f0) st (fi_now f0) (fi_data f0) a fd
                Ea Hfd) as [Ea0 [Hfd0 [Havg0 [He0 _]]]].
    fold adv0 in Ea0, Hfd0, Havg0, He0.
    destruct (advance_bound (fi_params f1) (fst adv0) (fi_now f1) (fi_data f1)
                a _ Ea0 Hfd0) as [_ [_ [_ [He1 Hb1]]]].
    fold adv1 in He1, Hb1.
    rewrite Hb1, beatUpdate_peak, beatUpdate_avg, <- He1, H1, Havg0.
    rewrite beatUpdate_avg, <- He0, H0.
    set (cur := beatEnergyAvgRef st) in *.
    assert (Hd : 0 < 1 - ((cur * alpha + 0 * (1 - alpha)) * alpha
                          + 1 * (1 - alpha)))
      by (unfold alpha; lra).
    rewrite Q.max_r by lra. lra.
  - destruct (advance_unbound (fi_params f0) st (fi_now f0) (fi_data f0) Ea)
      as [Ea0 _].
    fold adv0 in Ea0.
    destruct (advance_unbound (fi_params f1) (fst adv0) (fi_now f1)
                (fi_data f1) Ea0) as [_ [_ [_ Hs]]].
    fold adv1 in Hs. rewrite Hs in H1. discriminate H1.
Qed.

Lemma peak_positive_on_jump_witness :
  reachable connected /\
  0 < snd (snd (advance smallParams
                  (fst (advance smallParams connected 1016 silentData))
                  1032 loudData)).
Proof.
  assert (Hr : reachable connected).
  { unfold connected, mounted. apply reach_connect. apply reach_mount. }
  split; [exact Hr|].
  apply (peak_positive_on_jump connected
           (mkFrameIn sampleCanvas smallParams 1016 silentData)
           (mkFrameIn sampleCanvas smallParams 1032 loudData) Hr).
  - vm_compute. reflexivity.
  - vm_compute. reflexivity.
Defined.

(** C2. Whatever [params.segments] holds, the segment count a frame is
    drawn with lies in [2, 48], and that many wedges are drawn. *)
Theorem segCount_clamped (Math_pow : Q -> Q -> Q) (f : FrameIn) (st : State) :
  reachable st ->
  exists fr,
    snd (draw Math_pow f st) = Ok fr /\
    fr_segCount fr = Z.max 2 (Z.min 48 (Qfloor (segments (fi_params f)))) /\
    (2 <= fr_segCount fr <= 48)%Z /\
    Z.of_nat (length (fr_wedges fr)) = fr_segCount fr.
Proof.
  intros _.
  destruct (draw_ok Math_pow f st) as [fr [Hd [_ [_ [Hs [Hl _]]]]]].
  exists fr. rewrite Hd, Hl, Hs.
  pose proof (segCountOf_range (fi_params f)) as Hr.
  repeat split; try reflexivity; try lia.
Qed.

Lemma segCount_clamped_witness :
  exists fr,
    snd (draw pow_sample
           (mkFrameIn sampleCanvas
              (mkParams 1000 0.35 1.2 0.3 0.85 32 220 true) 1016 silentData)
           connected) = Ok fr /\
    fr_segCount fr = Z.max 2 (Z.min 48 (Qfloor 1000)) /\
    (2 <= fr_segCount fr <= 48)%Z /\
    Z.of_nat (length (fr_wedges fr)) = fr_segCount fr.
Proof.
  apply (segCount_clamped pow_sample
           (mkFrameIn sampleCanvas
              (mkParams 1000 0.35 1.2 0.3 0.85 32 220 true) 1016 silentData)
           connected).
  unfold connected, mounted. apply reach_connect. apply reach_mount.
Defined.

(** C3, as the code has it.  For a bar at fraction [t] of a wedge and a
    spectrum of length [L > 0], the index read is [floor (t * L)] as long
    as [t < 1]; for the last bar, [t = 1], it is [L - 1]. *)
Theorem binIndex_floor_below_one (len : Z) (t : Q) :
  (0 < len)%Z -> 0 <= t <= 1 ->
  (t < 1 -> binIndex len t = Qfloor (t * inject_Z len)) /\
  (t == 1 -> binIndex len t = (len - 1)%Z).
Proof.
  intros Hlen Ht. unfold binIndex. split; intro H.
  - pose proof (floor_scaled_below len t Hlen H). lia.
  - rewrite (floor_scaled_one len t H). lia.
Qed.

Lemma binIndex_floor_below_one_witness :
  binIndex 512 (barT 47) = Qfloor (barT 47 * inject_Z 512) /\
  binIndex 512 (barT 95) = (512 - 1)%Z.
Proof.
  split.
  - apply (binIndex_floor_below_one 512 (barT 47)).
    + reflexivity.
    + split; discriminate.
    + reflexivity.
  - apply (binIndex_floor_below_one 512 (barT 95)).
    + reflexivity.
    + split; discriminate.
    + reflexivity.
Defined.

(** C3 as stated fails on the last bar of a wedge: there [t = 1] and
    [floor (t * L) = L], and the index read is [L - 1]. *)
Lemma binIndex_last_bar_not_floor :
  0 <= barT 95 <= 1 /\ (0 < 512)%Z /\
  binIndex 512 (barT 95) = 511%Z /\
  Qfloor (barT 95 * inject_Z 512) = 512%Z /\
  binIndex 512 (barT 95) <> Qfloor (barT 95 * inject_Z 512).
Proof.
  repeat split; try discriminate; reflexivity.
Qed.

(** C10. For a bar at fraction [t] in [0, 1] and a non-empty spectrum,
    the index read is [min (L - 1) (floor (t * L))]; it lies in
    [0, L - 1], so the read hits a cell of the buffer, also at [t = 1]. *)
Theorem binIndex_in_bounds (fd : list byte) (t : Q) :
  fd <> [] -> 0 <= t <= 1 ->
  let len := Z.of_nat (length fd) in
  binIndex len t = Z.min (len - 1) (Qfloor (t * inject_Z len)) /\
  (0 <= binIndex len t <= len - 1)%Z /\
  exists b, nth_error fd (Z.to_nat (binIndex len t)) = Some b /\
            barBin (Some fd) t = Js.byteQ b / 255.
Proof.
  intros Hne Ht len.
  assert (Hlen : (0 < len)%Z).
  { unfold len. destruct fd; [congruence | simpl length; lia]. }
  pose proof (floor_scaled_nonneg len t Hlen (proj1 Ht)) as Hf.
  assert (Hr : (0 <= binIndex len t <= len - 1)%Z) by (unfold binIndex; lia).
  split; [reflexivity|]. split; [exact Hr|].
  assert (Hk : (Z.to_nat (binIndex len t) < length fd)%nat) by (unfold len in *; lia).
  destruct (nth_error fd (Z.to_nat (binIndex len t))) as [b|] eqn:E.
  - exists b. split; [reflexivity|].
    unfold barBin. fold len. rewrite (nth_error_nth _ _ _ E). reflexivity.
  - apply nth_error_None in E. lia.
Qed.

Lemma binIndex_in_bounds_witness :
  binIndex 16 1 = Z.min (16 - 1) (Qfloor (1 * inject_Z 16)) /\
  (0 <= binIndex 16 1 <= 16 - 1)%Z /\
  exists b, nth_error loudData (Z.to_nat (binIndex 16 1)) = Some b /\
            barBin (Some loudData) 1 = Js.byteQ b / 255.
Proof.
  apply (binIndex_in_bounds loudData 1).
  - discriminate.
  - split; discriminate.
Defined.

(** ** Bars of a wedge *)

Lemma wedge_bars_count (Math_pow : Q -> Q -> Q) (params : VisualParams)
  (st : State) (innerRadius maxRadius segAngle energy beatBoost : Q)
  (w : Wedge) :
  wedge_shape Math_pow params st innerRadius maxRadius segAngle energy
    beatBoost w ->
  length (wedge_bars w) = 96%nat.
Proof.
  intros [_ [_ Hb]]. rewrite Hb, length_map, upto_length. reflexivity.
Qed.

Lemma wedge_bars_forall (Math_pow : Q -> Q -> Q) (params : VisualParams)
  (st : State) (innerRadius maxRadius segAngle energy beatBoost : Q)
  (w : Wedge) (P : Bar -> Prop) :
  wedge_shape Math_pow params st innerRadius maxRadius segAngle energy
    beatBoost w ->
  (forall j, (0 <= j < bars)%Z ->
     P (drawBar Math_pow params (freqDataRef st) innerRadius maxRadius
          segAngle energy beatBoost j)) ->
  Forall P (wedge_bars w).
Proof.
  intros [_ [_ Hb]] H. rewrite Hb. apply Forall_forall.
  intros b Hin. apply in_map_iff in Hin. destruct Hin as [j [<- Hj]].
  apply H. apply upto_range. exact Hj.
Qed.

(** C4, as the code has it.  Over frames whose timestamps never go back
    and whose [rotationSpeed] is not negative, the rotation never
    decreases: the boost added to the speed is never negative, and neither
    is [dt]. *)
Theorem rotation_monotone_forward_clock (Math_pow : Q -> Q -> Q) (st : State)
  (fs1 fs2 : list FrameIn) :
  reachable st ->
  Forall (fun f => 0 <= rotationSpeed (fi_params f)) (fs1 ++ fs2) ->
  clockOrdered (lastTime st) (fs1 ++ fs2) ->
  rotationRef (runFrames Math_pow st fs1)
  <= rotationRef (runFrames Math_pow st (fs1 ++ fs2)).
Proof.
  intros _ Hs Hc. rewrite runFrames_app.
  apply Forall_app in Hs. destruct Hs as [_ Hs2].
  destruct (clockOrdered_split Math_pow st fs1 fs2 Hc) as [_ Hc2].
  apply runFrames_rotation_le; assumption.
Qed.

Lemma rotation_monotone_forward_clock_witness :
  rotationRef
    (runFrames pow_sample connected
       [mkFrameIn sampleCanvas smallParams 1016 silentData])
  <= rotationRef
       (runFrames pow_sample connected
          ([mkFrameIn sampleCanvas smallParams 1016 silentData]
           ++ [mkFrameIn sampleCanvas smallParams 1032 loudData])).
Proof.
  apply (rotation_monotone_forward_clock pow_sample connected
           [mkFrameIn sampleCanvas smallParams 1016 silentData]
           [mkFrameIn sampleCanvas smallParams 1032 loudData]).
  - unfold connected, mounted. apply reach_connect. apply reach_mount.
  - repeat constructor; discriminate.
  - simpl. repeat split; discriminate.
Defined.

(** C4 as stated fails when a timestamp lies before the stored
    [lastTime]: [dt] is only capped from above, so it is negative there and
    the rotation goes back although [rotationSpeed] is positive. *)
Lemma rotation_decreases_on_backward_clock :
  reachable mounted /\
  0 <= rotationSpeed DEFAULT_PARAMS /\
  frameDt (lastTime mounted) 990 == -0.01 /\
  rotationRef
    (runFrames pow_sample mounted
       [mkFrameIn sampleCanvas DEFAULT_PARAMS 990 []]) == -0.0035 /\
  rotationRef
    (runFrames pow_sample mounted
       [mkFrameIn sampleCanvas DEFAULT_PARAMS 990 []])
  < rotationRef (runFrames pow_sample mounted []).
Proof.
  split; [apply reach_mount|].
  split; [discriminate|].
  repeat split; vm_compute; reflexivity.
Qed.

Section SilentFrames.

Variable Math_pow : Q -> Q -> Q.

(** ECMAScript: [Math.pow(+0, y)] is [+0] for [y > 0]. *)
Hypothesis Math_pow_zero : forall x y : Q, x == 0 -> 0 < y -> Math_pow x y == 0.

(** C6. With no analyser bound, a frame is drawn from silence: energy and
    peak are [0], the beat state is left alone, every bar of every wedge
    has magnitude [0], and [draw] returns its frame without raising. *)
Theorem unbound_frame_is_silent (st : State) (f : FrameIn) :
  reachable st -> analyserRef st = None ->
  exists fr,
    draw Math_pow f st
    = (fst (advance (fi_params f) st (fi_now f) (fi_data f)), Ok fr) /\
    fr_energy fr = 0 /\ fr_beatBoost fr = 0 /\
    beatEnergyAvgRef (fst (draw Math_pow f st)) = beatEnergyAvgRef st /\
    length (fr_wedges fr) = Z.to_nat (segCountOf (fi_params f)) /\
    Forall (fun w =>
              length (wedge_bars w) = 96%nat /\
              Forall (fun b => bar_bin b == 0 /\ bar_mag b == 0)
                (wedge_bars w))
      (fr_wedges fr).
Proof.
  intros Hr Ha.
  destruct (reachable_refs_ok st Hr) as [Hu _ _].
  destruct (advance_unbound (fi_params f) st (fi_now f) (fi_data f) Ha)
    as [_ [Hfd [Havg Hs]]].
  destruct (draw_ok Math_pow f st) as [fr [Hd [He [Hb [_ [Hl Hw]]]]]].
  exists fr. rewrite Hd. rewrite Hs in He, Hb, Hw. simpl in He, Hb, Hw.
  repeat split; try assumption.
  eapply Forall_impl; [|exact Hw].
  intros w Hshape. split.
  - eapply wedge_bars_count. exact Hshape.
  - eapply wedge_bars_forall; [exact Hshape|].
    intros j _.
    match goal with
    | |- context [drawBar ?pw ?p ?fd ?ir ?mr ?sa ?e ?bb j] =>
        destruct (drawBar_silent pw Math_pow_zero p fd ir mr sa e bb j)
          as [H1 [H2 _]]
    end.
    + apply barBin_silent. intros fd Hsome.
      rewrite Hfd, (Hu Ha) in Hsome. discriminate.
    + split; assumption.
Qed.

(** C8. On a frame whose spectrum is all zero the energy is [0] and every
    bar is flat: its outer radius equals its inner radius, which is the
    least one, [0.8] of [innerRadius].  (The core stroke ends at [0.98] of
    that radius.) *)
Theorem zero_spectrum_bars_flat (st : State) (f : FrameIn) :
  reachable st ->
  (forall fd, freqDataRef (fst (draw Math_pow f st)) = Some fd ->
     Forall (fun b => b = x00) fd) ->
  exists fr,
    snd (draw Math_pow f st) = Ok fr /\
    fr_energy fr == 0 /\
    Forall (fun w =>
              Forall (fun b => bar_r1 b == bar_r0 b /\
                               bar_r0 b == innerRadiusOf (fi_canvas f) * 0.8 /\
                               bar_coreEnd b == bar_r0 b * 0.98)
                (wedge_bars w))
      (fr_wedges fr).
Proof.
  intros Hr Hz.
  destruct (draw_ok Math_pow f st) as [fr [Hd [He [_ [_ [_ Hw]]]]]].
  rewrite Hd in Hz. cbn [fst] in Hz.
  exists fr. rewrite Hd. split; [reflexivity|].
  assert (Hen : fr_energy fr == 0).
  { rewrite He. destruct (analyserRef st) as [a|] eqn:Ea.
    - destruct (reachable_refs_ok st Hr) as [_ Hbd _].
      destruct (Hbd a Ea) as [_ [fd [Hfd _]]].
      destruct (advance_bound (fi_params f) st (fi_now f) (fi_data f) a fd
                  Ea Hfd) as [_ [Hfd' [_ [He' _]]]].
      rewrite He'. apply energyOf_zero. apply Hz. exact Hfd'.
    - destruct (advance_unbound (fi_params f) st (fi_now f) (fi_data f) Ea)
        as [_ [_ [_ Hs]]].
      rewrite Hs. reflexivity. }
  split; [exact Hen|].
  rewrite He in Hen.
  eapply Forall_impl; [|exact Hw].
  intros w Hshape.
  eapply wedge_bars_forall; [exact Hshape|].
  intros j _.
  match goal with
  | |- context [drawBar ?pw ?p ?fd ?ir ?mr ?sa ?e ?bb j] =>
      destruct (drawBar_silent pw Math_pow_zero p fd ir mr sa e bb j)
        as [_ [_ H3]]
  end.
  - apply barBin_silent. exact Hz.
  - split; [exact H3|]. split.
    + unfold drawBar. cbn [bar_r0]. rewrite Hen. ring.
    + assert (Hc : forall b : Bar,
                 bar_coreEnd b == bar_r1 b * (0.98 + 0 * 0.02) ->
                 bar_r1 b == bar_r0 b -> bar_coreEnd b == bar_r0 b * 0.98).
      { intros b Hb1 Hb2. rewrite Hb1, Hb2. ring. }
      apply Hc; [|exact H3].
      unfold drawBar. cbn [bar_coreEnd bar_r1]. rewrite Hen. reflexivity.
Qed.

End SilentFrames.

Lemma pow_sample_zero (x y : Q) : x == 0 -> 0 < y -> pow_sample x y == 0.
Proof.
  intros Hx _. unfold pow_sample. apply Qeq_bool_iff in Hx. rewrite Hx.
  reflexivity.
Qed.

Lemma unbound_frame_is_silent_witness :
  reachable mounted /\ analyserRef mounted = None /\
  exists fr,
    draw pow_sample (mkFrameIn sampleCanvas DEFAULT_PARAMS 1016 loudData)
      mounted
    = (fst (advance DEFAULT_PARAMS mounted 1016 loudData), Ok fr) /\
    fr_energy fr = 0 /\ fr_beatBoost fr = 0 /\
    beatEnergyAvgRef
      (fst (draw pow_sample
              (mkFrameIn sampleCanvas DEFAULT_PARAMS 1016 loudData) mounted))
    = beatEnergyAvgRef mounted /\
    length (fr_wedges fr) = Z.to_nat (segCountOf DEFAULT_PARAMS) /\
    Forall (fun w =>
              length (wedge_bars w) = 96%nat /\
              Forall (fun b => bar_bin b == 0 /\ bar_mag b == 0)
                (wedge_bars w))
      (fr_wedges fr).
Proof.
  split; [apply reach_mount|]. split; [reflexivity|].
  apply (unbound_frame_is_silent pow_sample pow_sample_zero mounted
           (mkFrameIn sampleCanvas DEFAULT_PARAMS 1016 loudData)).
  - apply reach_mount.
  - reflexivity.
Defined.

Lemma zero_spectrum_bars_flat_witness :
  exists fr,
    snd (draw pow_sample
           (mkFrameIn sampleCanvas smallParams 1016 silentData) connected)
    = Ok fr /\
    fr_energy fr == 0 /\
    Forall (fun w =>
              Forall (fun b => bar_r1 b == bar_r0 b /\
                               bar_r0 b == innerRadiusOf sampleCanvas * 0.8 /\
                               bar_coreEnd b == bar_r0 b * 0.98)
                (wedge_bars w))
      (fr_wedges fr).
Proof.
  apply (zero_spectrum_bars_flat pow_sample pow_sample_zero connected
           (mkFrameIn sampleCanvas smallParams 1016 silentData)).
  - unfold connected, mounted. apply reach_connect. apply reach_mount.
  - intros fd Hfd. vm_compute in Hfd. injection Hfd as <-.
    repeat constructor.
Defined.

(** C7, as the code has it.  [draw] has no test for an empty canvas: on a
    canvas of width or height [0] the frame is processed like any other
    (the rotation advances, every wedge and bar is issued) and no call
    raises; what is painted is empty, since the overlay has no area and
    every radius is [0]. *)
Theorem degenerate_canvas_draws_empty_shapes (Math_pow : Q -> Q -> Q)
  (st : State) (f : FrameIn) :
  reachable st ->
  width (fi_canvas f) = 0%N \/ height (fi_canvas f) = 0%N ->
  exists fr,
    draw Math_pow f st
    = (fst (advance (fi_params f) st (fi_now f) (fi_data f)), Ok fr) /\
    fst (fr_overlay fr) * snd (fr_overlay fr) == 0 /\
    length (fr_wedges fr) = Z.to_nat (segCountOf (fi_params f)) /\
    Forall (fun w =>
              wedge_clipRadius w == 0 /\ wedge_nucleusR w == 0 /\
              length (wedge_bars w) = 96%nat /\
              Forall (fun b => bar_r0 b == 0 /\ bar_r1 b == 0 /\
                               bar_coreEnd b == 0)
                (wedge_bars w))
      (fr_wedges fr) /\
    rotationRef (fst (draw Math_pow f st))
    == rotationRef st
       + (rotationSpeed (fi_params f) + fr_beatBoost fr * 0.8)
         * frameDt (lastTime st) (fi_now f).
Proof.
  intros _ Hdeg.
  pose proof (minDimOf_degenerate (fi_canvas f) Hdeg) as Hmin.
  assert (Hi : innerRadiusOf (fi_canvas f) == 0)
    by (unfold innerRadiusOf; rewrite Hmin; reflexivity).
  assert (Hm : maxRadiusOf (fi_canvas f) == 0)
    by (unfold maxRadiusOf; rewrite Hmin; reflexivity).
  destruct (draw_ok Math_pow f st) as [fr [Hd [_ [Hb [_ [Hl Hw]]]]]].
  exists fr. split; [exact Hd|]. split.
  { rewrite draw_eq in Hd. injection Hd as Hrender.
    unfold render in Hrender.
    destruct (forEach _ _) as [ws|e]; simpl in Hrender; [|discriminate].
    injection Hrender as <-. cbn [fr_overlay fst snd].
    destruct Hdeg as [H|H]; rewrite H; ring. }
  split; [exact Hl|]. split.
  - eapply Forall_impl; [|exact Hw].
    intros w Hshape. pose proof Hshape as [Hc [Hn _]].
    split; [rewrite Hc; exact Hm|].
    split; [rewrite Hn, Hi; ring|].
    split; [eapply wedge_bars_count; exact Hshape|].
    eapply wedge_bars_forall; [exact Hshape|].
    intros j _. apply drawBar_degenerate; assumption.
  - rewrite Hd, Hb. cbn [fst]. apply advance_rotation.
Qed.

Lemma degenerate_canvas_draws_empty_shapes_witness :
  exists fr,
    draw pow_sample (mkFrameIn flatCanvas smallParams 1016 loudData) connected
    = (fst (advance smallParams connected 1016 loudData), Ok fr) /\
    fst (fr_overlay fr) * snd (fr_overlay fr) == 0 /\
    length (fr_wedges fr) = Z.to_nat (segCountOf smallParams) /\
    Forall (fun w =>
              wedge_clipRadius w == 0 /\ wedge_nucleusR w == 0 /\
              length (wedge_bars w) = 96%nat /\
              Forall (fun b => bar_r0 b == 0 /\ bar_r1 b == 0 /\
                               bar_coreEnd b == 0)
                (wedge_bars w))
      (fr_wedges fr) /\
    rotationRef
      (fst (draw pow_sample
              (mkFrameIn flatCanvas smallParams 1016 loudData) connected))
    == rotationRef connected
       + (rotationSpeed smallParams + fr_beatBoost fr * 0.8)
         * frameDt (lastTime connected) 1016.
Proof.
  apply (degenerate_canvas_draws_empty_shapes pow_sample connected
           (mkFrameIn flatCanvas smallParams 1016 loudData)).
  - unfold connected, mounted. apply reach_connect. apply reach_mount.
  - left. reflexivity.
Defined.

(** C7 as stated fails: on a canvas of width [0] the call is not skipped.
    The rotation moves, and the frame comes back with its twelve wedges of
    ninety-six bars each. *)
Lemma degenerate_canvas_frame_not_skipped :
  reachable mounted /\ width flatCanvas = 0%N /\
  rotationRef
    (fst (draw pow_sample (mkFrameIn flatCanvas DEFAULT_PARAMS 1016 [])
            mounted)) == 0.0056 /\
  ~ rotationRef
      (fst (draw pow_sample (mkFrameIn flatCanvas DEFAULT_PARAMS 1016 [])
              mounted)) == rotationRef mounted /\
  exists fr,
    snd (draw pow_sample (mkFrameIn flatCanvas DEFAULT_PARAMS 1016 [])
           mounted) = Ok fr /\
    length (fr_wedges fr) = 12%nat /\
    Forall (fun w => length (wedge_bars w) = 96%nat) (fr_wedges fr).
Proof.
  split; [apply reach_mount|]. split; [reflexivity|].
  split; [vm_compute; reflexivity|].
  split; [vm_compute; discriminate|].
  destruct (draw_ok pow_sample (mkFrameIn flatCanvas DEFAULT_PARAMS 1016 [])
              mounted) as [fr [Hd [_ [_ [_ [Hl Hw]]]]]].
  exists fr. rewrite Hd. split; [reflexivity|]. split; [exact Hl|].
  eapply Forall_impl; [|exact Hw].
  intros w Hshape. eapply wedge_bars_count. exact Hshape.
Qed.

(** ** The model on concrete frames *)

Example energy_of_full_scale : energyOf loudData == 1.
Proof. reflexivity. Qed.

Example first_frame_peak : snd (beatUpdate 0 1) == 1.98.
Proof. reflexivity. Qed.

Example default_segCount : segCountOf DEFAULT_PARAMS = 12%Z.
Proof. reflexivity. Qed.

Example stalled_frame_dt : frameDt 1000 5000 == 0.05.
Proof. reflexivity. Qed.

Example connected_buffer : freqDataRef connected = Some silentData.
Proof. reflexivity. Qed.

(** * Further properties of the pipeline *)

(** ** Energy of a buffer *)

Lemma byteQ_zero_inv (b : byte) : Js.byteQ b == 0 -> b = x00.
Proof.
  unfold Js.byteQ. intro H. unfold Qeq in H. simpl in H.
  assert (Hn : Byte.to_N b = 0%N) by lia.
  pose proof (Byte.of_to_N b) as Hb. rewrite Hn in Hb.
  simpl in Hb. congruence.
Qed.

Lemma byteQ_full_inv (b : byte) : Js.byteQ b == 255 -> b = xff.
Proof.
  unfold Js.byteQ. intro H. unfold Qeq in H. simpl in H.
  assert (Hn : Byte.to_N b = 255%N) by lia.
  pose proof (Byte.of_to_N b) as Hb. rewrite Hn in Hb.
  vm_compute in Hb. congruence.
Qed.

Lemma sumOf_zero_inv (fd : list byte) :
  sumOf fd == 0 -> Forall (fun b => b = x00) fd.
Proof.
  induction fd as [|b l IH]; intro H; constructor.
  - rewrite sumOf_cons in H. apply byteQ_zero_inv.
    pose proof (byteQ_range b). pose proof (sumOf_range l). lra.
  - apply IH. rewrite sumOf_cons in H.
    pose proof (byteQ_range b). pose proof (sumOf_range l). lra.
Qed.

Lemma sumOf_full (fd : list byte) :
  Forall (fun b => b = xff) fd ->
  sumOf fd == 255 * inject_Z (Z.of_nat (length fd)).
Proof.
  induction 1 as [|b l Hb _ IH].
  - reflexivity.
  - rewrite sumOf_cons, IH, Hb.
    replace (Z.of_nat (length (xff :: l))) with (1 + Z.of_nat (length l))%Z
      by (simpl length; lia).
    rewrite inject_Z_plus. change (Js.byteQ xff) with 255.
    change (inject_Z 1) with 1. ring.
Qed.

Lemma sumOf_full_inv (fd : list byte) :
  sumOf fd == 255 * inject_Z (Z.of_nat (length fd)) ->
  Forall (fun b => b = xff) fd.
Proof.
  induction fd as [|b l IH]; intro H; constructor;
    rewrite sumOf_cons in H;
    replace (Z.of_nat (length (b :: l))) with (1 + Z.of_nat (length l))%Z in H
      by (simpl length; lia);
    rewrite inject_Z_plus in H; change (inject_Z 1) with 1 in H;
    pose proof (byteQ_range b); pose proof (sumOf_range l).
  - apply byteQ_full_inv. lra.
  - apply IH. lra.
Qed.

Lemma energyOf_sum (fd : list byte) :
  fd <> [] ->
  sumOf fd == energyOf fd * (255 * inject_Z (Z.of_nat (length fd))).
Proof.
  intro Hne. unfold energyOf.
  assert (Hn : 0 < inject_Z (Z.of_nat (length fd))).
  { change 0 with (inject_Z 0). rewrite <- Zlt_Qlt.
    destruct fd; [congruence | simpl length; lia]. }
  field. lra.
Qed.

(** X2. The energy of a non-empty buffer is [0] exactly when every cell
    is [0], and [1] exactly when every cell is [255]. *)
Theorem energyOf_extremes (fd : list byte) :
  fd <> [] ->
  (energyOf fd == 0 <-> Forall (fun b => b = x00) fd) /\
  (energyOf fd == 1 <-> Forall (fun b => b = xff) fd).
Proof.
  intro Hne. pose proof (energyOf_sum fd Hne) as Hs.
  assert (Hn : 0 < inject_Z (Z.of_nat (length fd))).
  { change 0 with (inject_Z 0). rewrite <- Zlt_Qlt.
    destruct fd; [congruence | simpl length; lia]. }
  split; split; intro H.
  - apply sumOf_zero_inv. rewrite Hs, H. ring.
  - apply energyOf_zero. exact H.
  - apply sumOf_full_inv. rewrite Hs, H. ring.
  - pose proof (sumOf_full fd H) as Hf. rewrite Hs in Hf.
    set (n := inject_Z (Z.of_nat (length fd))) in *.
    set (e := energyOf fd) in *.
    assert (He : (e - 1) * (255 * n) == 0) by lra.
    apply Qmult_integral in He. destruct He as [He|He]; lra.
Qed.

Lemma energyOf_extremes_witness :
  (energyOf silentData == 0 <-> Forall (fun b => b = x00) silentData) /\
  (energyOf silentData == 1 <-> Forall (fun b => b = xff) silentData).
Proof.
  apply (energyOf_extremes silentData). discriminate.
Defined.

(** ** The features of a frame *)

Lemma beatUpdate_peak_le (prev energy : Q) :
  0 <= prev -> energy <= 1 -> snd (beatUpdate prev energy) <= 1.98.
Proof.
  intros Hp He. rewrite beatUpdate_peak, beatUpdate_avg. unfold alpha.
  destruct (Q.max_spec 0 (energy - (prev * 0.9 + energy * (1 - 0.9))))
    as [[_ H]|[_ H]]; rewrite H; lra.
Qed.

Lemma advance_features_range (params : VisualParams) (st : State) (now : Q)
  (data : list byte) :
  reachable st ->
  0 <= fst (snd (advance params st now data)) <= 1 /\
  0 <= snd (snd (advance params st now data)) <= 1.98.
Proof.
  intro Hr. pose proof (reachable_refs_ok st Hr) as [_ Hb Ha].
  destruct (analyserRef st) as [a|] eqn:Ea.
  - destruct (Hb a eq_refl) as [_ [fd [Hfd _]]].
    destruct (advance_bound params st now data a fd Ea Hfd)
      as [_ [_ [_ [He Hp]]]].
    rewrite He, Hp.
    pose proof (energyOf_range (getByteFrequencyData data fd)) as Hrange.
    split; [exact Hrange|]. split.
    + apply beatUpdate_peak_nonneg.
    + apply beatUpdate_peak_le; [apply Ha | apply Hrange].
  - destruct (advance_unbound params st now data Ea) as [_ [_ [_ Hs]]].
    rewrite Hs. simpl. repeat split; discriminate.
Qed.

Lemma render_fields (Math_pow : Q -> Q -> Q) (canvas : Canvas)
  (params : VisualParams) (st : State) (energy beatBoost : Q) (fr : Frame) :
  render Math_pow canvas params st energy beatBoost = Ok fr ->
  fr_hue fr
  = Js.rem (baseHue params + 360 * (energy * 0.5 + beatBoost * 0.6)) 360 /\
  fr_lightness fr = Qmin 85 (65 + energy * 25) /\
  fr_glowAlpha fr = Qmin 0.6 (0.25 + bloom params) /\
  forEach (drawWedge Math_pow params st (innerRadiusOf canvas)
             (maxRadiusOf canvas)
             (Js.Math_PI * 2 / inject_Z (segCountOf params)) energy beatBoost)
    (Js.upto (segCountOf params)) = Ok (fr_wedges fr).
Proof.
  unfold render. intro H.
  destruct (forEach _ _) as [ws|e]; simpl in H; [|discriminate].
  injection H as <-. simpl. auto.
Qed.

(** X3. Every frame drawn has an energy in [0, 1] and a peak between [0]
    and [2]: the peak is bounded, whatever the audio does. *)
Theorem frame_features_bounded (Math_pow : Q -> Q -> Q) (st : State)
  (f : FrameIn) :
  reachable st ->
  exists fr,
    snd (draw Math_pow f st) = Ok fr /\
    0 <= fr_energy fr <= 1 /\ 0 <= fr_beatBoost fr <= 2.
Proof.
  intro Hr.
  destruct (draw_ok Math_pow f st) as [fr [Hd [He [Hb _]]]].
  exists fr. rewrite Hd, He, Hb. split; [reflexivity|].
  destruct (advance_features_range (fi_params f) st (fi_now f) (fi_data f) Hr)
    as [Hen [Hb0 Hb1]].
  split; [exact Hen|]. split; [exact Hb0 | lra].
Qed.

Lemma frame_features_bounded_witness :
  exists fr,
    snd (draw pow_sample (mkFrameIn sampleCanvas smallParams 1016 loudData)
           connected) = Ok fr /\
    0 <= fr_energy fr <= 1 /\ 0 <= fr_beatBoost fr <= 2.
Proof.
  apply (frame_features_bounded pow_sample connected
           (mkFrameIn sampleCanvas smallParams 1016 loudData)).
  unfold connected, mounted. apply reach_connect. apply reach_mount.
Defined.

(** X4. [draw] never raises: in every state the component reaches, for
    every canvas, params, timestamp and analyser content, it returns a
    frame and hands on the state [advance] computed; so a run of frames
    processes every frame, and ends with the last timestamp stored. *)
Theorem draw_never_raises (Math_pow : Q -> Q -> Q) (st : State) (f : FrameIn)
  (fs : list FrameIn) :
  reachable st ->
  (exists fr,
     draw Math_pow f st
     = (fst (advance (fi_params f) st (fi_now f) (fi_data f)), Ok fr)) /\
  reachable (runFrames Math_pow st (fs ++ [f])) /\
  lastTime (runFrames Math_pow st (fs ++ [f])) = fi_now f.
Proof.
  intro Hr. split.
  - destruct (draw_ok Math_pow f st) as [fr [Hd _]]. exists fr. exact Hd.
  - rewrite runFrames_app, runFrames_cons. cbn [runFrames].
    split; [|apply advance_lastTime].
    apply reach_draw.
    clear f. revert st Hr. induction fs as [|g fs IH]; intros st Hr.
    + exact Hr.
    + rewrite runFrames_cons. apply IH. apply reach_draw. exact Hr.
Qed.

Lemma draw_never_raises_witness :
  (exists fr,
     draw pow_sample (mkFrameIn flatCanvas smallParams 5000 loudData) connected
     = (fst (advance smallParams connected 5000 loudData), Ok fr)) /\
  reachable
    (runFrames pow_sample connected
       ([mkFrameIn sampleCanvas smallParams 1016 silentData]
        ++ [mkFrameIn flatCanvas smallParams 5000 loudData])) /\
  lastTime
    (runFrames pow_sample connected
       ([mkFrameIn sampleCanvas smallParams 1016 silentData]
        ++ [mkFrameIn flatCanvas smallParams 5000 loudData])) = 5000.
Proof.
  apply (draw_never_raises pow_sample connected
           (mkFrameIn flatCanvas smallParams 5000 loudData)
           [mkFrameIn sampleCanvas smallParams 1016 silentData]).
  unfold connected, mounted. apply reach_connect. apply reach_mount.
Defined.

(** ** The rotation, one frame *)

(** X5. However long the gap since the previous frame, one frame turns
    the picture by at most [(rotationSpeed + 1.6) * 0.05] radians when
    [rotationSpeed] is not negative: [dt] is capped at 50 ms and the boost
    stays below [2 * 0.8]. *)
Theorem rotation_step_capped (st : State) (f : FrameIn) :
  reachable st -> 0 <= rotationSpeed (fi_params f) ->
  rotationRef (fst (advance (fi_params f) st (fi_now f) (fi_data f)))
  - rotationRef st
  <= (rotationSpeed (fi_params f) + 1.6) * 0.05.
Proof.
  intros Hr Hs. rewrite advance_rotation.
  destruct (advance_features_range (fi_params f) st (fi_now f) (fi_data f) Hr)
    as [_ [Hb0 Hb1]].
  set (boost := snd (snd (advance (fi_params f) st (fi_now f) (fi_data f))))
    in *.
  assert (Hdt : frameDt (lastTime st) (fi_now f) <= 0.05)
    by (unfold frameDt; apply Q.le_min_l).
  set (dt := frameDt (lastTime st) (fi_now f)) in *.
  set (speed := rotationSpeed (fi_params f)) in *.
  assert (H1 : (speed + boost * 0.8) * dt <= (speed + boost * 0.8) * 0.05)
    by nra.
  lra.
Qed.

Lemma rotation_step_capped_witness :
  rotationRef (fst (advance smallParams connected 9000 loudData))
  - rotationRef connected
  <= (rotationSpeed smallParams + 1.6) * 0.05.
Proof.
  apply (rotation_step_capped connected
           (mkFrameIn sampleCanvas smallParams 9000 loudData)).
  - unfold connected, mounted. apply reach_connect. apply reach_mount.
  - discriminate.
Defined.

(** X6. A frame whose timestamp equals the stored [lastTime] has [dt = 0]
    and leaves the rotation where it was, whatever the audio. *)
Theorem rotation_unchanged_at_zero_dt (st : State) (f : FrameIn) :
  reachable st -> fi_now f == lastTime st ->
  rotationRef (fst (advance (fi_params f) st (fi_now f) (fi_data f)))
  == rotationRef st.
Proof.
  intros _ Ht. rewrite advance_rotation.
  assert (Hdt : frameDt (lastTime st) (fi_now f) == 0).
  { unfold frameDt. rewrite Ht.
    setoid_replace ((lastTime st - lastTime st) / 1000) with 0 by field.
    apply Q.min_r. discriminate. }
  rewrite Hdt. ring.
Qed.

Lemma rotation_unchanged_at_zero_dt_witness :
  rotationRef (fst (advance smallParams connected 1000 loudData))
  == rotationRef connected.
Proof.
  apply (rotation_unchanged_at_zero_dt connected
           (mkFrameIn sampleCanvas smallParams 1000 loudData)).
  - unfold connected, mounted. apply reach_connect. apply reach_mount.
  - reflexivity.
Defined.

(** X7. On a frame of energy [0] (silence, or nothing bound) the peak is
    [0] and the picture turns at the base speed alone:
    [rotationSpeed * dt]. *)
Theorem silent_frame_turns_at_base_speed (st : State) (f : FrameIn) :
  reachable st ->
  fst (snd (advance (fi_params f) st (fi_now f) (fi_data f))) == 0 ->
  snd (snd (advance (fi_params f) st (fi_now f) (fi_data f))) == 0 /\
  rotationRef (fst (advance (fi_params f) st (fi_now f) (fi_data f)))
  == rotationRef st
     + rotationSpeed (fi_params f) * frameDt (lastTime st) (fi_now f).
Proof.
  intros Hr He.
  assert (Hb : snd (snd (advance (fi_params f) st (fi_now f) (fi_data f)))
               == 0).
  { pose proof (reachable_refs_ok st Hr) as [_ Hbd Ha].
    destruct (analyserRef st) as [a|] eqn:Ea.
    - destruct (Hbd a eq_refl) as [_ [fd [Hfd _]]].
      destruct (advance_bound (fi_params f) st (fi_now f) (fi_data f) a fd
                  Ea Hfd) as [_ [_ [_ [He' Hp]]]].
      rewrite He' in He. rewrite Hp, beatUpdate_peak, beatUpdate_avg, He.
      unfold alpha. rewrite Q.max_l by lra. ring.
    - destruct (advance_unbound (fi_params f) st (fi_now f) (fi_data f) Ea)
        as [_ [_ [_ Hs]]].
      rewrite Hs. reflexivity. }
  split; [exact Hb|].
  rewrite advance_rotation, Hb. ring.
Qed.

Lemma silent_frame_turns_at_base_speed_witness :
  snd (snd (advance smallParams connected 1016 silentData)) == 0 /\
  rotationRef (fst (advance smallParams connected 1016 silentData))
  == rotationRef connected
     + rotationSpeed smallParams * frameDt (lastTime connected) 1016.
Proof.
  apply (silent_frame_turns_at_base_speed connected
           (mkFrameIn sampleCanvas smallParams 1016 silentData)).
  - unfold connected, mounted. apply reach_connect. apply reach_mount.
  - reflexivity.
Defined.

(** ** Colours *)

Lemma rem_360_range (x : Q) : 0 <= x -> 0 <= Js.rem x 360 < 360.
Proof.
  intro Hx. unfold Js.rem, Js.trunc.
  assert (Hq : 0 <= x / 360) by (apply Qle_shift_div_l; [reflexivity | lra]).
  rewrite (proj2 (Qle_bool_iff 0 (x / 360)) Hq).
  pose proof (Qfloor_le (x / 360)) as H1.
  pose proof (Qlt_floor (x / 360)) as H2.
  rewrite inject_Z_plus in H2. change (inject_Z 1) with 1 in H2.
  assert (Hx' : x == 360 * (x / 360)) by (field; discriminate).
  set (k := inject_Z (Qfloor (x / 360))) in *.
  set (q := x / 360) in *.
  split; lra.
Qed.

Lemma draw_fields (Math_pow : Q -> Q -> Q) (f : FrameIn) (st : State) :
  let adv := advance (fi_params f) st (fi_now f) (fi_data f) in
  exists fr,
    draw Math_pow f st = (fst adv, Ok fr) /\
    fr_hue fr
    = Js.rem (baseHue (fi_params f)
              + 360 * (fst (snd adv) * 0.5 + snd (snd adv) * 0.6)) 360 /\
    fr_lightness fr = Qmin 85 (65 + fst (snd adv) * 25) /\
    fr_glowAlpha fr = Qmin 0.6 (0.25 + bloom (fi_params f)) /\
    forEach (drawWedge Math_pow (fi_params f) (fst adv)
               (innerRadiusOf (fi_canvas f)) (maxRadiusOf (fi_canvas f))
               (Js.Math_PI * 2 / inject_Z (segCountOf (fi_params f)))
               (fst (snd adv)) (snd (snd adv)))
      (Js.upto (segCountOf (fi_params f))) = Ok (fr_wedges fr).
Proof.
  intro adv. destruct (draw_ok Math_pow f st) as [fr [Hd _]]. fold adv in Hd.
  exists fr. split; [exact Hd|].
  rewrite draw_eq in Hd. fold adv in Hd. injection Hd as Hr.
  apply (render_fields _ _ _ _ _ _ _ Hr).
Qed.

(** X8. With a base hue that is not negative, the hue of every frame lies
    in [0, 360): the remainder wraps the audio-driven shift around the
    colour circle. *)
Theorem frame_hue_in_circle (Math_pow : Q -> Q -> Q) (st : State)
  (f : FrameIn) :
  reachable st -> 0 <= baseHue (fi_params f) ->
  exists fr,
    snd (draw Math_pow f st) = Ok fr /\ 0 <= fr_hue fr < 360.
Proof.
  intros Hr Hh.
  destruct (draw_fields Math_pow f st) as [fr [Hd [Hhue _]]].
  exists fr. rewrite Hd. split; [reflexivity|]. rewrite Hhue.
  destruct (advance_features_range (fi_params f) st (fi_now f) (fi_data f) Hr)
    as [[He _] [Hb _]].
  apply rem_360_range. lra.
Qed.

Lemma frame_hue_in_circle_witness :
  exists fr,
    snd (draw pow_sample (mkFrameIn sampleCanvas smallParams 1016 loudData)
           connected) = Ok fr /\ 0 <= fr_hue fr < 360.
Proof.
  apply (frame_hue_in_circle pow_sample connected
           (mkFrameIn sampleCanvas smallParams 1016 loudData)).
  - unfold connected, mounted. apply reach_connect. apply reach_mount.
  - discriminate.
Defined.

(** X9. The lightness of the core colour stays in [65, 85] and is pinned
    at [85] from energy [0.8] on; the opacity of the glow never exceeds
    [0.6], is at least [0.25] for a bloom that is not negative, and is
    pinned at [0.6] from bloom [0.35] on. *)
Theorem frame_colour_bounds (Math_pow : Q -> Q -> Q) (st : State)
  (f : FrameIn) :
  reachable st ->
  exists fr,
    snd (draw Math_pow f st) = Ok fr /\
    65 <= fr_lightness fr <= 85 /\
    (0.8 <= fr_energy fr -> fr_lightness fr == 85) /\
    fr_glowAlpha fr <= 0.6 /\
    (0 <= bloom (fi_params f) -> 0.25 <= fr_glowAlpha fr) /\
    (0.35 <= bloom (fi_params f) -> fr_glowAlpha fr == 0.6).
Proof.
  intros Hr.
  destruct (draw_fields Math_pow f st) as [fr [Hd [_ [Hl [Hg _]]]]].
  destruct (draw_ok Math_pow f st) as [fr' [Hd' [He _]]].
  assert (fr' = fr) by congruence. subst fr'.
  exists fr. rewrite Hd. split; [reflexivity|]. rewrite Hl, Hg, He.
  destruct (advance_features_range (fi_params f) st (fi_now f) (fi_data f) Hr)
    as [[He0 He1] _].
  set (e := fst (snd (advance (fi_params f) st (fi_now f) (fi_data f)))) in *.
  repeat split.
  - apply Q.min_glb; lra.
  - apply Q.le_min_l.
  - intro H. apply Q.min_l. lra.
  - apply Q.le_min_l.
  - intro H. apply Q.min_glb; lra.
  - intro H. apply Q.min_l. lra.
Qed.

Lemma frame_colour_bounds_witness :
  exists fr,
    snd (draw pow_sample (mkFrameIn sampleCanvas smallParams 1016 loudData)
           connected) = Ok fr /\
    65 <= fr_lightness fr <= 85 /\
    (0.8 <= fr_energy fr -> fr_lightness fr == 85) /\
    fr_glowAlpha fr <= 0.6 /\
    (0 <= bloom smallParams -> 0.25 <= fr_glowAlpha fr) /\
    (0.35 <= bloom smallParams -> fr_glowAlpha fr == 0.6).
Proof.
  apply (frame_colour_bounds pow_sample connected
           (mkFrameIn sampleCanvas smallParams 1016 loudData)).
  unfold connected, mounted. apply reach_connect. apply reach_mount.
Defined.

(** ** Geometry of a frame *)

Lemma barBin_range (freqData : option (list byte)) (t : Q) :
  0 <= barBin freqData t <= 1.
Proof.
  unfold barBin. destruct freqData as [fd|]; [|split; discriminate].
  pose proof (byteQ_range (nth (Z.to_nat (binIndex (Z.of_nat (length fd)) t))
                             fd x00)) as Hb.
  split.
  - apply Qle_shift_div_l; [reflexivity | lra].
  - apply Qle_shift_div_r; [reflexivity | lra].
Qed.




Lemma segAngle_pos (params : VisualParams) :
  0 < Js.Math_PI * 2 / inject_Z (segCountOf params).
Proof.
  pose proof (segCountOf_range params) as Hs.
  apply Qlt_shift_div_l.
  - change 0 with (inject_Z 0). rewrite <- Zlt_Qlt. lia.
  - reflexivity.
Qed.



(** X11. Every bar of a wedge is drawn inside the wedge's clip sector:
    its angle lies between minus and plus half a sector; and the bin it
    shows is a number in [0, 1]. *)
Theorem bars_inside_sector (Math_pow : Q -> Q -> Q) (st : State)
  (f : FrameIn) :
  reachable st ->
  exists fr,
    snd (draw Math_pow f st) = Ok fr /\
    Forall (fun w =>
              Forall (fun b =>
                        - (Js.Math_PI / inject_Z (fr_segCount fr))
                        <= bar_localAngle b
                        <= Js.Math_PI / inject_Z (fr_segCount fr) /\
                        0 <= bar_bin b <= 1)
                (wedge_bars w))
      (fr_wedges fr).
Proof.
  intros _.
  destruct (draw_ok Math_pow f st) as [fr [Hd [_ [_ [Hseg [_ Hw]]]]]].
  exists fr. rewrite Hd, Hseg. split; [reflexivity|].
  eapply Forall_impl; [|exact Hw].
  intros w Hshape. eapply wedge_bars_forall; [exact Hshape|].
  intros j Hj. unfold drawBar. cbn [bar_localAngle bar_bin].
  split; [|apply barBin_range].
  pose proof (barT_range j Hj) as Ht.
  pose proof (segAngle_pos (fi_params f)) as Hs.
  assert (Ha : Js.Math_PI / inject_Z (segCountOf (fi_params f))
               == (Js.Math_PI * 2 / inject_Z (segCountOf (fi_params f))) * 0.5).
  { pose proof (segCountOf_range (fi_params f)) as Hr.
    field. intro H0. unfold Qeq in H0. simpl in H0. lia. }
  rewrite Ha.
  set (a := Js.Math_PI * 2 / inject_Z (segCountOf (fi_params f))) in *.
  set (t := barT j) in *.
  split; nra.
Qed.

Lemma bars_inside_sector_witness :
  exists fr,
    snd (draw pow_sample (mkFrameIn sampleCanvas smallParams 1016 loudData)
           connected) = Ok fr /\
    Forall (fun w =>
              Forall (fun b =>
                        - (Js.Math_PI / inject_Z (fr_segCount fr))
                        <= bar_localAngle b
                        <= Js.Math_PI / inject_Z (fr_segCount fr) /\
                        0 <= bar_bin b <= 1)
                (wedge_bars w))
      (fr_wedges fr).
Proof.
  apply (bars_inside_sector pow_sample connected
           (mkFrameIn sampleCanvas smallParams 1016 loudData)).
  unfold connected, mounted. apply reach_connect. apply reach_mount.
Defined.

Section BarGeometry.

Variable Math_pow : Q -> Q -> Q.

(** ECMAScript: a power of a base that is not negative is not negative. *)
Hypothesis Math_pow_nonneg : forall x y : Q, 0 <= x -> 0 <= Math_pow x y.

Lemma drawBar_radii (params : VisualParams) (freqData : option (list byte))
  (innerRadius maxRadius segAngle energy beatBoost : Q) (j : Z) :
  0 <= sensitivity params -> 0 <= innerRadius ->
  innerRadius * 1.2 <= maxRadius ->
  0 <= energy <= 1 -> 0 <= beatBoost ->
  let b := drawBar Math_pow params freqData innerRadius maxRadius segAngle
             energy beatBoost j in
  0 <= bar_mag b /\
  innerRadius * 0.8 <= bar_r0 b /\ bar_r0 b <= bar_r1 b /\
  bar_r1 b <= maxRadius /\ bar_coreEnd b <= bar_r1 b.
Proof.
  intros Hs Hi Hm He Hb b. unfold b, drawBar.
  cbn [bar_mag bar_r0 bar_r1 bar_coreEnd].
  pose proof (Math_pow_nonneg (barBin freqData (barT j)) 1.3
                (proj1 (barBin_range freqData (barT j)))) as Hp.
  set (p := Math_pow (barBin freqData (barT j)) 1.3) in *.
  assert (Hmag : 0 <= p * sensitivity params)
    by (apply Qmult_le_0_compat; assumption).
  set (mag := p * sensitivity params) in *.
  assert (Hq : 0 <= Qmin 1.0 (mag * (0.9 + beatBoost)) <= 1).
  { split; [|apply Qle_trans with 1.0; [apply Q.le_min_l | discriminate]].
    apply Q.min_glb; [discriminate|].
    apply Qmult_le_0_compat; lra. }
  set (q := Qmin 1.0 (mag * (0.9 + beatBoost))) in *.
  set (r0 := innerRadius * (0.8 + energy * 0.4)).
  assert (Hr0 : innerRadius * 0.8 <= r0 <= innerRadius * 1.2)
    by (unfold r0; split; nra).
  assert (Hd : 0 <= (maxRadius - r0) * q <= maxRadius - r0) by (split; nra).
  repeat split; try lra. nra.
Qed.

(** X12. With a sensitivity that is not negative, every bar runs outward
    and stays on the canvas: its inner end is at least [0.8] of
    [innerRadius], its outer end is no nearer to the centre than the inner
    end and no further than half the smaller side of the canvas, and the
    core stroke ends no further out than the glow stroke. *)
Theorem bars_within_clip_radius (st : State) (f : FrameIn) :
  reachable st -> 0 <= sensitivity (fi_params f) ->
  exists fr,
    snd (draw Math_pow f st) = Ok fr /\
    Forall (fun w =>
              wedge_clipRadius w = maxRadiusOf (fi_canvas f) /\
              Forall (fun b =>
                        0 <= bar_mag b /\
                        innerRadiusOf (fi_canvas f) * 0.8 <= bar_r0 b /\
                        bar_r0 b <= bar_r1 b /\
                        bar_r1 b <= minDimOf (fi_canvas f) * 0.5 /\
                        bar_coreEnd b <= bar_r1 b)
                (wedge_bars w))
      (fr_wedges fr).
Proof.
  intros Hr Hs.
  destruct (draw_ok Math_pow f st) as [fr [Hd [_ [_ [_ [_ Hw]]]]]].
  exists fr. rewrite Hd. split; [reflexivity|].
  destruct (advance_features_range (fi_params f) st (fi_now f) (fi_data f) Hr)
    as [He [Hb _]].
  pose proof (minDimOf_nonneg (fi_canvas f)) as Hmin.
  eapply Forall_impl; [|exact Hw].
  intros w Hshape. pose proof Hshape as [Hc _].
  split; [exact Hc|].
  eapply wedge_bars_forall; [exact Hshape|].
  intros j _.
  match goal with
  | |- context [drawBar ?pw ?p ?fd ?ir ?mr ?sa ?e ?bb j] =>
      destruct (drawBar_radii p fd ir mr sa e bb j) as [G1 [G2 [G3 [G4 G5]]]]
  end; try assumption.
  - unfold innerRadiusOf. lra.
  - unfold innerRadiusOf, maxRadiusOf. lra.
  - repeat split; try assumption.
    eapply Qle_trans; [exact G4|]. unfold maxRadiusOf. lra.
Qed.

End BarGeometry.

Lemma pow_sample_nonneg (x y : Q) : 0 <= x -> 0 <= pow_sample x y.
Proof.
  intros _. unfold pow_sample. destruct (Qeq_bool x 0); discriminate.
Qed.

Lemma bars_within_clip_radius_witness :
  exists fr,
    snd (draw pow_sample (mkFrameIn sampleCanvas smallParams 1016 loudData)
           connected) = Ok fr /\
    Forall (fun w =>
              wedge_clipRadius w = maxRadiusOf sampleCanvas /\
              Forall (fun b =>
                        0 <= bar_mag b /\
                        innerRadiusOf sampleCanvas * 0.8 <= bar_r0 b /\
                        bar_r0 b <= bar_r1 b /\
                        bar_r1 b <= minDimOf sampleCanvas * 0.5 /\
                        bar_coreEnd b <= bar_r1 b)
                (wedge_bars w))
      (fr_wedges fr).
Proof.
  apply (bars_within_clip_radius pow_sample pow_sample_nonneg connected
           (mkFrameIn sampleCanvas smallParams 1016 loudData)).
  - unfold connected, mounted. apply reach_connect. apply reach_mount.
  - discriminate.
Defined.

(** X13. The nucleus of every wedge is a disc of radius between [0.9] and
    [2.49] times [innerRadius], so it always fits inside the clip circle. *)
Theorem nucleus_within_clip_radius (Math_pow : Q -> Q -> Q) (st : State)
  (f : FrameIn) :
  reachable st ->
  exists fr,
    snd (draw Math_pow f st) = Ok fr /\
    Forall (fun w =>
              innerRadiusOf (fi_canvas f) * 0.9 <= wedge_nucleusR w /\
              wedge_nucleusR w <= innerRadiusOf (fi_canvas f) * 2.49 /\
              wedge_nucleusR w <= wedge_clipRadius w)
      (fr_wedges fr).
Proof.
  intros Hr.
  destruct (draw_ok Math_pow f st) as [fr [Hd [_ [_ [_ [_ Hw]]]]]].
  exists fr. rewrite Hd. split; [reflexivity|].
  destruct (advance_features_range (fi_params f) st (fi_now f) (fi_data f) Hr)
    as [He Hb].
  pose proof (minDimOf_nonneg (fi_canvas f)) as Hmin.
  eapply Forall_impl; [|exact Hw].
  intros w [Hc [Hn _]]. rewrite Hc, Hn.
  set (e := fst (snd (advance (fi_params f) st (fi_now f) (fi_data f)))) in *.
  set (b := snd (snd (advance (fi_params f) st (fi_now f) (fi_data f)))) in *.
  unfold innerRadiusOf, maxRadiusOf.
  set (d := minDimOf (fi_canvas f)) in *.
  repeat split; nra.
Qed.

Lemma nucleus_within_clip_radius_witness :
  exists fr,
    snd (draw pow_sample (mkFrameIn sampleCanvas smallParams 1016 loudData)
           connected) = Ok fr /\
    Forall (fun w =>
              innerRadiusOf sampleCanvas * 0.9 <= wedge_nucleusR w /\
              wedge_nucleusR w <= innerRadiusOf sampleCanvas * 2.49 /\
              wedge_nucleusR w <= wedge_clipRadius w)
      (fr_wedges fr).
Proof.
  apply (nucleus_within_clip_radius pow_sample connected
           (mkFrameIn sampleCanvas smallParams 1016 loudData)).
  unfold connected, mounted. apply reach_connect. apply reach_mount.
Defined.

(** ** The analyser binding and its buffer *)

Lemma getByteFrequencyData_exact (data buf : list byte) :
  length data = length buf -> getByteFrequencyData data buf = data.
Proof.
  intro H. unfold getByteFrequencyData.
  rewrite <- H, firstn_all, skipn_all2 by lia. apply app_nil_r.
Qed.

(** X14. With an analyser bound, a frame copies the analyser's magnitudes
    into the buffer: when the analyser delivers its [frequencyBinCount]
    cells, the buffer afterwards holds exactly them and the frame's energy
    is their mean over 255; in any case the buffer keeps its length. *)
Theorem frame_reads_analyser_data (st : State) (f : FrameIn)
  (a : AnalyserNode) :
  reachable st -> analyserRef st = Some a ->
  let adv := advance (fi_params f) st (fi_now f) (fi_data f) in
  (exists fd', freqDataRef (fst adv) = Some fd' /\
               length fd' = Z.to_nat (frequencyBinCount a)) /\
  (length (fi_data f) = Z.to_nat (frequencyBinCount a) ->
   freqDataRef (fst adv) = Some (fi_data f) /\
   fst (snd adv) = energyOf (fi_data f)).
Proof.
  intros Hr Ha adv.
  pose proof (reachable_refs_ok st Hr) as [_ Hb _].
  destruct (Hb a Ha) as [_ [fd [Hfd Hlen]]].
  destruct (advance_bound (fi_params f) st (fi_now f) (fi_data f) a fd Ha Hfd)
    as [_ [Hfd' [_ [He _]]]].
  fold adv in Hfd', He. split.
  - eexists. split; [exact Hfd'|].
    rewrite getByteFrequencyData_length. exact Hlen.
  - intro Hd.
    rewrite getByteFrequencyData_exact in Hfd', He by congruence.
    split; assumption.
Qed.

Lemma frame_reads_analyser_data_witness :
  (exists fd',
     freqDataRef (fst (advance smallParams connected 1016 loudData))
     = Some fd' /\
     length fd' = Z.to_nat (frequencyBinCount (mkAnalyser 0.85 32))) /\
  (length loudData = Z.to_nat (frequencyBinCount (mkAnalyser 0.85 32)) ->
   freqDataRef (fst (advance smallParams connected 1016 loudData))
   = Some loudData /\
   fst (snd (advance smallParams connected 1016 loudData))
   = energyOf loudData).
Proof.
  apply (frame_reads_analyser_data connected
           (mkFrameIn sampleCanvas smallParams 1016 loudData)
           (mkAnalyser 0.85 32)).
  - unfold connected, mounted. apply reach_connect. apply reach_mount.
  - reflexivity.
Defined.

(** X15. In every state the component reaches, either nothing is bound
    (no analyser and no buffer), or an analyser with a valid transform size
    is bound together with a buffer of exactly half that many cells,
    between 16 and 16384. *)
Theorem binding_invariant (st : State) :
  reachable st ->
  (analyserRef st = None /\ freqDataRef st = None) \/
  (exists a fd,
     analyserRef st = Some a /\ freqDataRef st = Some fd /\
     validFftSize (an_fftSize a) = true /\
     Z.of_nat (length fd) = (an_fftSize a / 2)%Z /\
     (16 <= Z.of_nat (length fd) <= 16384)%Z).
Proof.
  intro Hr. pose proof (reachable_refs_ok st Hr) as [Hu Hb _].
  destruct (analyserRef st) as [a|] eqn:Ea.
  - right. destruct (Hb a eq_refl) as [Hv [fd [Hfd Hlen]]].
    exists a, fd. repeat split; try assumption;
      rewrite Hlen; unfold frequencyBinCount;
      unfold validFftSize in Hv; simpl in Hv;
      repeat (apply orb_prop in Hv; destruct Hv as [Hv|Hv];
              [apply Z.eqb_eq in Hv; rewrite Hv; vm_compute;
               first [reflexivity | lia | discriminate]|]);
      discriminate.
  - left. split; [reflexivity | apply Hu; reflexivity].
Qed.

Lemma binding_invariant_witness :
  (analyserRef connected = None /\ freqDataRef connected = None) \/
  (exists a fd,
     analyserRef connected = Some a /\ freqDataRef connected = Some fd /\
     validFftSize (an_fftSize a) = true /\
     Z.of_nat (length fd) = (an_fftSize a / 2)%Z /\
     (16 <= Z.of_nat (length fd) <= 16384)%Z).
Proof.
  apply (binding_invariant connected).
  unfold connected, mounted. apply reach_connect. apply reach_mount.
Defined.

(** X16. The effect that follows [params.smoothing] and [params.fftSize]
    is idempotent: running it again with the same params changes
    nothing, whether the assignments succeeded or raised. *)
Theorem updateAnalyser_idempotent (params : VisualParams) (st : State) :
  updateAnalyser params (updateAnalyser params st)
  = updateAnalyser params st.
Proof.
  remember (updateAnalyser params st) as st1 eqn:E1.
  unfold updateAnalyser in E1.
  destruct (analyserRef st) as [a|] eqn:Ea.
  - destruct (validSmoothing (smoothing params)) eqn:Es.
    + destruct (an_fftSize a =? fftSize params)%Z eqn:Eq.
      * subst st1. unfold updateAnalyser. simpl. rewrite Es, Eq. reflexivity.
      * destruct (validFftSize (fftSize params)) eqn:Ev.
        -- subst st1. unfold updateAnalyser. simpl.
           rewrite Es, Z.eqb_refl. reflexivity.
        -- subst st1. unfold updateAnalyser. simpl.
           rewrite Es, Eq, Ev. reflexivity.
    + subst st1. unfold updateAnalyser. rewrite Ea, Es. reflexivity.
  - subst st1. unfold updateAnalyser. rewrite Ea. reflexivity.
Qed.

(** X17. Once the effect has run with valid params on a bound analyser,
    the analyser carries exactly those settings and the buffer has half
    [fftSize] cells; the buffer is kept as it was when the transform size
    did not change, and is a fresh zeroed one when it did. *)
Theorem updateAnalyser_follows_params (params : VisualParams) (st : State)
  (a : AnalyserNode) :
  reachable st -> analyserRef st = Some a ->
  validSmoothing (smoothing params) = true ->
  validFftSize (fftSize params) = true ->
  analyserRef (updateAnalyser params st)
  = Some {| smoothingTimeConstant := smoothing params;
            an_fftSize := fftSize params |} /\
  (an_fftSize a = fftSize params ->
   freqDataRef (updateAnalyser params st) = freqDataRef st) /\
  (an_fftSize a <> fftSize params ->
   freqDataRef (updateAnalyser params st)
   = Some (repeat x00 (Z.to_nat (fftSize params / 2)))) /\
  exists fd, freqDataRef (updateAnalyser params st) = Some fd /\
             length fd = Z.to_nat (fftSize params / 2).
Proof.
  intros Hr Ha Hs Hv.
  pose proof (reachable_refs_ok st Hr) as [_ Hb _].
  destruct (Hb a Ha) as [_ [fd [Hfd Hlen]]].
  unfold updateAnalyser. rewrite Ha, Hs.
  destruct (an_fftSize a =? fftSize params)%Z eqn:Eq.
  - apply Z.eqb_eq in Eq. simpl. rewrite Eq. repeat split.
    + intro Hne. congruence.
    + exists fd. split; [exact Hfd|]. rewrite Hlen.
      unfold frequencyBinCount. rewrite Eq. reflexivity.
  - apply Z.eqb_neq in Eq. rewrite Hv. simpl. repeat split.
    + intro He. congruence.
    + eexists. split; [reflexivity|]. apply newUint8Array_length.
Qed.

Lemma updateAnalyser_follows_params_witness :
  analyserRef (updateAnalyser DEFAULT_PARAMS connected)
  = Some {| smoothingTimeConstant := smoothing DEFAULT_PARAMS;
            an_fftSize := fftSize DEFAULT_PARAMS |} /\
  (an_fftSize (mkAnalyser 0.85 32) = fftSize DEFAULT_PARAMS ->
   freqDataRef (updateAnalyser DEFAULT_PARAMS connected)
   = freqDataRef connected) /\
  (an_fftSize (mkAnalyser 0.85 32) <> fftSize DEFAULT_PARAMS ->
   freqDataRef (updateAnalyser DEFAULT_PARAMS connected)
   = Some (repeat x00 (Z.to_nat (fftSize DEFAULT_PARAMS / 2)))) /\
  exists fd, freqDataRef (updateAnalyser DEFAULT_PARAMS connected) = Some fd /\
             length fd = Z.to_nat (fftSize DEFAULT_PARAMS / 2).
Proof.
  apply (updateAnalyser_follows_params DEFAULT_PARAMS connected
           (mkAnalyser 0.85 32)).
  - unfold connected, mounted. apply reach_connect. apply reach_mount.
  - reflexivity.
  - reflexivity.
  - reflexivity.
Defined.

(** X18. With a transform size from the FFT menu and a smoothing from the
    slider's range, connecting a source always binds: the analyser takes
    those settings and gets a zeroed buffer of half [fftSize] cells.  The
    rotation and the rolling average are carried over; connecting a new
    source does not reset them. *)
Theorem connectAnalyser_binds_control_values (params : VisualParams)
  (st : State) :
  In (fftSize params) [256; 512; 1024; 2048; 4096; 8192]%Z ->
  0 <= smoothing params <= 0.95 ->
  analyserRef (connectAnalyser params st)
  = Some {| smoothingTimeConstant := smoothing params;
            an_fftSize := fftSize params |} /\
  freqDataRef (connectAnalyser params st)
  = Some (repeat x00 (Z.to_nat (fftSize params / 2))) /\
  rotationRef (connectAnalyser params st) = rotationRef st /\
  beatEnergyAvgRef (connectAnalyser params st) = beatEnergyAvgRef st.
Proof.
  intros Hf [Hs0 Hs1]. unfold connectAnalyser.
  assert (Hv : validFftSize (fftSize params) = true).
  { simpl in Hf.
    repeat (destruct Hf as [Hf|Hf]; [rewrite <- Hf; reflexivity|]).
    contradiction. }
  assert (Hsm : validSmoothing (smoothing params) = true).
  { unfold validSmoothing. apply andb_true_intro.
    split; apply Qle_bool_iff; lra. }
  rewrite Hv, Hsm. simpl. repeat split.
Qed.

Lemma connectAnalyser_binds_control_values_witness :
  analyserRef (connectAnalyser DEFAULT_PARAMS mounted)
  = Some {| smoothingTimeConstant := smoothing DEFAULT_PARAMS;
            an_fftSize := fftSize DEFAULT_PARAMS |} /\
  freqDataRef (connectAnalyser DEFAULT_PARAMS mounted)
  = Some (repeat x00 (Z.to_nat (fftSize DEFAULT_PARAMS / 2))) /\
  rotationRef (connectAnalyser DEFAULT_PARAMS mounted) = rotationRef mounted /\
  beatEnergyAvgRef (connectAnalyser DEFAULT_PARAMS mounted)
  = beatEnergyAvgRef mounted.
Proof.
  apply (connectAnalyser_binds_control_values DEFAULT_PARAMS mounted).
  - simpl. right. right. left. reflexivity.
  - split; discriminate.
Defined.

Lemma runFrames_binding (Math_pow : Q -> Q -> Q) (st : State)
  (fs : list FrameIn) :
  analyserRef (runFrames Math_pow st fs) = analyserRef st /\
  option_map (@length byte) (freqDataRef (runFrames Math_pow st fs))
  = option_map (@length byte) (freqDataRef st).
Proof.
  revert st. induction fs as [|f fs IH]; intro st.
  - split; reflexivity.
  - rewrite runFrames_cons.
    destruct (IH (fst (advance (fi_params f) st (fi_now f) (fi_data f))))
      as [H1 H2].
    rewrite H1, H2. unfold advance.
    destruct (analyserRef st) as [a|]; [|split; reflexivity].
    destruct (freqDataRef st) as [fd|]; [|split; reflexivity].
    destruct (beatUpdate _ _). simpl.
    rewrite getByteFrequencyData_length. split; reflexivity.
Qed.

(** X19. Drawing never touches the binding: after any run of frames the
    same analyser is bound (or none), and the buffer has the length it
    had. *)
Theorem frames_keep_binding (Math_pow : Q -> Q -> Q) (st : State)
  (fs : list FrameIn) :
  reachable st ->
  analyserRef (runFrames Math_pow st fs) = analyserRef st /\
  option_map (@length byte) (freqDataRef (runFrames Math_pow st fs))
  = option_map (@length byte) (freqDataRef st).
Proof.
  intros _. apply runFrames_binding.
Qed.

Lemma frames_keep_binding_witness :
  analyserRef
    (runFrames pow_sample connected
       [mkFrameIn sampleCanvas smallParams 1016 loudData;
        mkFrameIn flatCanvas DEFAULT_PARAMS 1032 []])
  = analyserRef connected /\
  option_map (@length byte)
    (freqDataRef
       (runFrames pow_sample connected
          [mkFrameIn sampleCanvas smallParams 1016 loudData;
           mkFrameIn flatCanvas DEFAULT_PARAMS 1032 []]))
  = option_map (@length byte) (freqDataRef connected).
Proof.
  apply (frames_keep_binding pow_sample connected
           [mkFrameIn sampleCanvas smallParams 1016 loudData;
            mkFrameIn flatCanvas DEFAULT_PARAMS 1032 []]).
  unfold connected, mounted. apply reach_connect. apply reach_mount.
Defined.

(** ** The canvas size *)





(** * Properties of the audio session *)

Lemma controlValues_accepts (p : VisualParams) :
  controlValues p -> analyserAccepts p = true.
Proof.
  intros [Hf [Hs0 Hs1]]. unfold analyserAccepts. apply andb_true_intro. split.
  - unfold validSmoothing. apply andb_true_intro.
    split; apply Qle_bool_iff; lra.
  - simpl in Hf.
    repeat (destruct Hf as [Hf|Hf]; [rewrite <- Hf; reflexivity|]).
    contradiction.
Qed.

Lemma connectAnalyser_accepted (p : VisualParams) (r : State) :
  analyserAccepts p = true ->
  analyserRef (connectAnalyser p r)
  = Some {| smoothingTimeConstant := smoothing p; an_fftSize := fftSize p |}.
Proof.
  unfold analyserAccepts, connectAnalyser. intros ->. reflexivity.
Qed.

Lemma advance_analyserRef (params : VisualParams) (st : State) (now : Q)
  (data : list byte) :
  analyserRef (fst (advance params st now data)) = analyserRef st.
Proof.
  unfold advance.
  destruct (analyserRef st) as [a|]; [|reflexivity].
  destruct (freqDataRef st) as [fd|]; [|reflexivity].
  destruct (beatUpdate _ _). reflexivity.
Qed.

Lemma updateAnalyser_settings (p : VisualParams) (r : State)
  (a : AnalyserNode) :
  analyserAccepts p = true ->
  analyserRef (updateAnalyser p r) = Some a ->
  analyserRef r <> None /\
  smoothingTimeConstant a == smoothing p /\ an_fftSize a = fftSize p.
Proof.
  unfold analyserAccepts. intro Hacc. apply andb_prop in Hacc.
  destruct Hacc as [Hs Hv]. unfold updateAnalyser.
  destruct (analyserRef r) as [a0|] eqn:Ea;
    [|cbn iota; rewrite Ea; discriminate].
  rewrite Hs, Hv.
  destruct (an_fftSize a0 =? fftSize p)%Z eqn:Eq; simpl; intros [= <-]; simpl.
  - apply Z.eqb_eq in Eq.
    split; [discriminate|]. split; [reflexivity | exact Eq].
  - split; [discriminate|]. split; reflexivity.
Qed.

Lemma updateAnalyser_bound (p : VisualParams) (r : State) :
  analyserRef (updateAnalyser p r) <> None <-> analyserRef r <> None.
Proof.
  unfold updateAnalyser.
  destruct (analyserRef r) as [a0|] eqn:Ea.
  - destruct (validSmoothing (smoothing p)).
    + destruct (an_fftSize a0 =? fftSize p)%Z;
        [|destruct (validFftSize (fftSize p))]; simpl; split; discriminate.
    + rewrite Ea. tauto.
  - rewrite Ea. tauto.
Qed.

Ltac live_fields :=
  constructor; cbn [ui audioEl graph refs isPlaying usingMic usingSample
                    fileName ui_params audio_src audio_loop audio_paused
                    audioCtxRef srcNodeRef srcConnected elementCaptured
                    ensureContext];
  rewrite ?connectAnalyser_accepted by assumption;
  try solve [ reflexivity | assumption | discriminate
            | intros; discriminate | intros; congruence
            | apply reach_connect; assumption
            | split; discriminate
            | intros ? [= <-]; simpl; split; reflexivity
            | intros; split; [assumption | discriminate]
            | intuition (discriminate || congruence || eauto) ].

Lemma live_ok_mount (t0 : Q) : live_ok (mountComponent t0).
Proof.
  unfold mountComponent. live_fields.
  - split; [simpl; auto 10 | split; discriminate].
  - apply reach_mount.
Qed.

Lemma live_ok_stop (c : Component) : live_ok c -> live_ok (stopAudio c).
Proof.
  intros [H1 H2 H3 H4 H5 H6 H7 H8 H9 H10 H11]. unfold stopAudio. live_fields.
Qed.

Lemma live_ok_play (src : String.string) (outcome : PlayOutcome)
  (c : Component) :
  live_ok c -> src <> ""%string ->
  live_ok (fst (playFromElement src outcome c)).
Proof.
  intros [H1 H2 H3 H4 H5 H6 H7 H8 H9 H10 H11] Hsrc.
  pose proof (controlValues_accepts _ H8) as Hacc.
  unfold playFromElement. destruct outcome as [|pausedAfter].
  - cbn [ensureContext srcNodeRef elementCaptured].
    destruct (srcNodeRef (graph c)) as [[|]|] eqn:En.
    + cbn [fst]. live_fields.
    + destruct (elementCaptured (graph c)) eqn:Ec.
      * cbn [fst]. live_fields.
      * unfold bindSource. cbn [ui_params]. rewrite Hacc. cbn [fst].
        live_fields.
    + destruct (elementCaptured (graph c)) eqn:Ec.
      * exfalso. destruct (H5 eq_refl) as [_ Hn]. congruence.
      * unfold bindSource. cbn [ui_params]. rewrite Hacc. cbn [fst].
        live_fields.
  - cbn [fst]. live_fields.
Qed.

Lemma live_ok_mic (granted : bool) (c : Component) :
  live_ok c -> live_ok (fst (startMic granted c)).
Proof.
  intros [H1 H2 H3 H4 H5 H6 H7 H8 H9 H10 H11].
  pose proof (controlValues_accepts _ H8) as Hacc.
  unfold startMic. destruct granted.
  - unfold bindSource. cbn [ui_params]. rewrite Hacc. cbn [fst].
    live_fields.
  - cbn [fst]. live_fields.
Qed.

Lemma SAMPLE_URL_nonempty : SAMPLE_URL <> ""%string.
Proof. discriminate. Qed.

Lemma srcOrSample_nonempty (a : AudioEl) : srcOrSample a <> ""%string.
Proof.
  unfold srcOrSample.
  destruct (String.eqb (audio_src a) ""%string) eqn:E.
  - apply SAMPLE_URL_nonempty.
  - apply String.eqb_neq. exact E.
Qed.

Lemma objectURL_nonempty (url : String.string) :
  objectURL url -> url <> ""%string.
Proof.
  unfold objectURL. intros H ->. discriminate H.
Qed.

Lemma live_ok_click (outcome : PlayOutcome) (c : Component) :
  live_ok c -> live_ok (fst (onPlayClick outcome c)).
Proof.
  intro H. unfold onPlayClick.
  destruct (isPlaying (ui c)); [apply live_ok_stop; exact H|].
  destruct (usingMic (ui c)); [exact H|].
  apply live_ok_play; [exact H|].
  destruct (usingSample (ui c));
    [apply SAMPLE_URL_nonempty | apply srcOrSample_nonempty].
Qed.

Lemma live_ok_file (name url : String.string) (outcome : PlayOutcome)
  (c : Component) :
  live_ok c -> objectURL url -> live_ok (fst (onFilePicked name url outcome c)).
Proof.
  intros H Hu. unfold onFilePicked.
  apply live_ok_play; [|apply objectURL_nonempty; exact Hu].
  destruct H as [H1 H2 H3 H4 H5 H6 H7 H8 H9 H10 H11]. live_fields.
Qed.

Lemma live_ok_params (p : VisualParams) (t : Q) (c : Component) :
  live_ok c -> controlValues p -> live_ok (setParams p t c).
Proof.
  intros [H1 H2 H3 H4 H5 H6 H7 H8 H9 H10 H11] Hp.
  pose proof (controlValues_accepts _ Hp) as Hacc.
  unfold setParams.
  destruct (negb (Qeq_bool (smoothing (ui_params (ui c))) (smoothing p)
                  && (fftSize (ui_params (ui c)) =? fftSize p)%Z)) eqn:Ech.
  - live_fields.
    + apply reach_start. apply reach_update. exact H9.
    + unfold startLoop. cbn [analyserRef].
      rewrite updateAnalyser_bound. exact H10.
    + unfold startLoop. cbn [analyserRef]. intros a Ha.
      apply (updateAnalyser_settings p (refs c) a Hacc Ha).
  - apply negb_false_iff in Ech. apply andb_prop in Ech.
    destruct Ech as [Es Ef]. apply Qeq_bool_iff in Es. apply Z.eqb_eq in Ef.
    live_fields.
    + apply reach_start. exact H9.
    + unfold startLoop. cbn [analyserRef]. intros a Ha.
      destruct (H11 a Ha) as [Ha1 Ha2]. split.
      * rewrite Ha1. exact Es.
      * rewrite Ha2. exact Ef.
Qed.

Lemma live_ok_frame (now : Q) (data : list byte) (c : Component) :
  live_ok c -> live_ok (onFrame now data c).
Proof.
  intros [H1 H2 H3 H4 H5 H6 H7 H8 H9 H10 H11]. unfold onFrame. live_fields.
  - apply (reach_draw (mkFrameIn sampleCanvas (ui_params (ui c)) now data)).
    exact H9.
  - rewrite advance_analyserRef. exact H10.
  - rewrite advance_analyserRef. exact H11.
Qed.

Lemma live_live_ok (c : Component) : live c -> live_ok c.
Proof.
  induction 1.
  - apply live_ok_mount.
  - apply live_ok_click; assumption.
  - apply live_ok_play; [assumption | apply SAMPLE_URL_nonempty].
  - apply live_ok_mic; assumption.
  - apply live_ok_file; assumption.
  - apply live_ok_params; assumption.
  - apply live_ok_frame; assumption.
Qed.

(** X21. As long as no press or file pick arrives while an earlier one is
    still awaiting the browser, the source flags are consistent in every
    state of the component:
    [usingMic] and [usingSample] are never both set; while [usingMic] is
    set, the node in [srcNodeRef] is the microphone stream and it feeds
    the analyser; and while it is not set, [usingSample] tells exactly
    whether the element plays the sample URL. *)
Theorem source_flags_consistent (c : Component) :
  live c ->
  usingMic (ui c) && usingSample (ui c) = false /\
  (usingMic (ui c) = true ->
   srcNodeRef (graph c) = Some MediaStreamAudioSourceNode /\
   srcConnected (graph c) = true /\ analyserRef (refs c) <> None) /\
  (usingMic (ui c) = false ->
   usingSample (ui c) = String.eqb (audio_src (audioEl c)) SAMPLE_URL).
Proof.
  intro H. destruct (live_live_ok c H) as [H1 H2 H3 _ _ _ _ _ _ H10 _].
  split; [exact H1|]. split; [|exact H3].
  intro Hm. destruct (H2 Hm) as [Hn Hc].
  split; [exact Hn|]. split; [exact Hc|].
  apply H10. rewrite Hn. discriminate.
Qed.

Lemma source_flags_consistent_witness :
  usingMic (ui (fst (startMic true (mountComponent 1000))))
  && usingSample (ui (fst (startMic true (mountComponent 1000)))) = false /\
  (usingMic (ui (fst (startMic true (mountComponent 1000)))) = true ->
   srcNodeRef (graph (fst (startMic true (mountComponent 1000))))
   = Some MediaStreamAudioSourceNode /\
   srcConnected (graph (fst (startMic true (mountComponent 1000)))) = true /\
   analyserRef (refs (fst (startMic true (mountComponent 1000)))) <> None) /\
  (usingMic (ui (fst (startMic true (mountComponent 1000)))) = false ->
   usingSample (ui (fst (startMic true (mountComponent 1000))))
   = String.eqb
       (audio_src (audioEl (fst (startMic true (mountComponent 1000)))))
       SAMPLE_URL).
Proof.
  apply (source_flags_consistent (fst (startMic true (mountComponent 1000)))).
  apply live_mic. apply live_mount.
Defined.

(** X22. Whatever the sequence of buttons, file picks, control changes
    and frames, as long as none of them arrives while a handler is still
    awaiting the browser, a bound analyser runs with the smoothing and the
    transform size that are on the controls, and its buffer has half
    [fftSize] cells. *)
Theorem analyser_follows_controls (c : Component) (a : AnalyserNode) :
  live c -> analyserRef (refs c) = Some a ->
  smoothingTimeConstant a == smoothing (ui_params (ui c)) /\
  an_fftSize a = fftSize (ui_params (ui c)) /\
  exists fd, freqDataRef (refs c) = Some fd /\
             Z.of_nat (length fd) = (fftSize (ui_params (ui c)) / 2)%Z.
Proof.
  intros H Ha. destruct (live_live_ok c H) as [_ _ _ _ _ _ _ H8 H9 _ H11].
  destruct (H11 a Ha) as [Hs Hf]. split; [exact Hs|]. split; [exact Hf|].
  destruct (reachable_refs_ok _ H9) as [_ Hb _].
  destruct (Hb a Ha) as [_ [fd [Hfd Hlen]]].
  exists fd. split; [exact Hfd|].
  rewrite Hlen. unfold frequencyBinCount. rewrite Hf.
  destruct H8 as [Hin _]. simpl in Hin.
  repeat (destruct Hin as [Hin|Hin]; [rewrite <- Hin; reflexivity|]).
  contradiction.
Qed.

Lemma analyser_follows_controls_witness :
  smoothingTimeConstant (mkAnalyser 0.85 1024)
  == smoothing
       (ui_params
          (ui (fst (playFromElement SAMPLE_URL PlayResolved
                      (mountComponent 1000))))) /\
  an_fftSize (mkAnalyser 0.85 1024)
  = fftSize
      (ui_params
         (ui (fst (playFromElement SAMPLE_URL PlayResolved
                     (mountComponent 1000))))) /\
  exists fd,
    freqDataRef
      (refs (fst (playFromElement SAMPLE_URL PlayResolved
                    (mountComponent 1000)))) = Some fd /\
    Z.of_nat (length fd)
    = (fftSize
         (ui_params
            (ui (fst (playFromElement SAMPLE_URL PlayResolved
                        (mountComponent 1000))))) / 2)%Z.
Proof.
  apply (analyser_follows_controls
           (fst (playFromElement SAMPLE_URL PlayResolved (mountComponent 1000)))
           (mkAnalyser 0.85 1024)).
  - apply live_sample. apply live_mount.
  - reflexivity.
Defined.

(** X23. Whenever the button shows Pause ([isPlaying] is set), a source
    node exists, an analyser is bound and the audio context is running. *)
Theorem playing_implies_bound (c : Component) :
  live c -> isPlaying (ui c) = true ->
  srcNodeRef (graph c) <> None /\
  analyserRef (refs c) <> None /\
  audioCtxRef (graph c) = Some Running.
Proof.
  intros H Hp. destruct (live_live_ok c H) as [_ _ _ _ _ H6 H7 _ _ H10 _].
  pose proof (H7 Hp) as Hn.
  split; [exact Hn|]. split; [apply H10; exact Hn | apply H6; exact Hn].
Qed.

Lemma playing_implies_bound_witness :
  srcNodeRef (graph (fst (startMic true (mountComponent 1000)))) <> None /\
  analyserRef (refs (fst (startMic true (mountComponent 1000)))) <> None /\
  audioCtxRef (graph (fst (startMic true (mountComponent 1000))))
  = Some Running.
Proof.
  apply (playing_implies_bound (fst (startMic true (mountComponent 1000)))).
  - apply live_mic. apply live_mount.
  - reflexivity.
Defined.

(** X24. Once the microphone is granted, [startMic] ends with the
    microphone playing.  The Play/Pause button then only clears
    [isPlaying]: the microphone stays connected and the refs are left
    alone; and from there the button does nothing any more, so the
    microphone cannot be resumed with it. *)
Theorem mic_pause_cannot_resume (c : Component) (o1 o2 : PlayOutcome) :
  live c ->
  let c1 := fst (startMic true c) in
  let c2 := fst (onPlayClick o1 c1) in
  snd (startMic true c) = None /\
  isPlaying (ui c1) = true /\ usingMic (ui c1) = true /\
  isPlaying (ui c2) = false /\ usingMic (ui c2) = true /\
  graph c2 = graph c1 /\ refs c2 = refs c1 /\
  onPlayClick o2 c2 = (c2, None).
Proof.
  intros H c1 c2.
  destruct (live_live_ok c H) as [_ _ _ _ _ _ _ H8 _ _ _].
  pose proof (controlValues_accepts _ H8) as Hacc.
  unfold c2, c1, startMic, bindSource. cbn [ui_params]. rewrite Hacc.
  cbn [fst snd]. unfold onPlayClick. cbn [ui isPlaying usingMic].
  cbn [fst]. unfold stopAudio. cbn [ui isPlaying usingMic graph refs].
  repeat split.
Qed.

Lemma mic_pause_cannot_resume_witness :
  snd (startMic true (mountComponent 1000)) = None /\
  isPlaying (ui (fst (startMic true (mountComponent 1000)))) = true /\
  usingMic (ui (fst (startMic true (mountComponent 1000)))) = true /\
  isPlaying
    (ui (fst (onPlayClick PlayResolved
                (fst (startMic true (mountComponent 1000)))))) = false /\
  usingMic
    (ui (fst (onPlayClick PlayResolved
                (fst (startMic true (mountComponent 1000)))))) = true /\
  graph (fst (onPlayClick PlayResolved
                (fst (startMic true (mountComponent 1000)))))
  = graph (fst (startMic true (mountComponent 1000))) /\
  refs (fst (onPlayClick PlayResolved
               (fst (startMic true (mountComponent 1000)))))
  = refs (fst (startMic true (mountComponent 1000))) /\
  onPlayClick PlayResolved
    (fst (onPlayClick PlayResolved
            (fst (startMic true (mountComponent 1000)))))
  = (fst (onPlayClick PlayResolved
            (fst (startMic true (mountComponent 1000)))), None).
Proof.
  apply (mic_pause_cannot_resume (mountComponent 1000) PlayResolved
           PlayResolved).
  apply live_mount.
Defined.





(** X26. While the element is the bound source, Pause followed by Play
    brings the component back where it was: the same flags, the same
    graph, the same refs (the analyser is not reconnected and its buffer is
    not reset), and the element is given the same [src] again. *)
Theorem pause_resume_round_trip (c : Component) (o : PlayOutcome) :
  live c -> isPlaying (ui c) = true -> usingMic (ui c) = false ->
  srcNodeRef (graph c) = Some MediaElementAudioSourceNode ->
  let c1 := fst (onPlayClick o c) in
  let r := onPlayClick PlayResolved c1 in
  isPlaying (ui c1) = false /\ audio_paused (audioEl c1) = true /\
  snd r = None /\
  ui (fst r) = ui c /\ graph (fst r) = graph c /\ refs (fst r) = refs c /\
  audioEl (fst r)
  = {| audio_src := audio_src (audioEl c); audio_loop := true;
       audio_paused := false |}.
Proof.
  intros H Hp Hm Hn c1 r.
  destruct (live_live_ok c H) as [_ _ H3 H4 H5 H6 _ _ _ _ _].
  assert (Hctx : audioCtxRef (graph c) = Some Running)
    by (apply H6; rewrite Hn; discriminate).
  destruct (H5 (H4 Hn)) as [Hsrc _].
  pose proof (H3 Hm) as Hs.
  clear H H3 H4 H5 H6.
  destruct c as [[ip um us fn pr] [asrc aloop apaused] [ctx sn sc ec] rf].
  cbn [ui audioEl graph refs isPlaying usingMic usingSample audio_src
       audioCtxRef srcNodeRef] in *.
  subst ip um sn ctx.
  assert (Hsel : (if us then SAMPLE_URL
                  else srcOrSample (mkAudioEl asrc aloop true)) = asrc).
  { rewrite Hs. destruct (String.eqb asrc SAMPLE_URL) eqn:E.
    - apply String.eqb_eq in E. symmetry. exact E.
    - unfold srcOrSample. cbn [audio_src].
      destruct (String.eqb asrc ""%string) eqn:E0; [|reflexivity].
      apply String.eqb_eq in E0. contradiction. }
  unfold r, c1, onPlayClick, stopAudio.
  cbn [fst snd ui audioEl graph refs isPlaying usingMic usingSample fileName
       ui_params audio_src audio_loop audio_paused].
  rewrite Hsel. unfold playFromElement.
  cbn [fst snd ui audioEl graph refs isPlaying usingMic usingSample fileName
       ui_params audio_src audio_loop audio_paused ensureContext srcNodeRef
       audioCtxRef srcConnected elementCaptured].
  rewrite <- Hs. repeat split.
Qed.

Lemma pause_resume_round_trip_witness :
  isPlaying
    (ui (fst (onPlayClick PlayResolved
                (fst (playFromElement SAMPLE_URL PlayResolved
                        (mountComponent 1000)))))) = false /\
  audio_paused
    (audioEl (fst (onPlayClick PlayResolved
                     (fst (playFromElement SAMPLE_URL PlayResolved
                             (mountComponent 1000)))))) = true /\
  snd (onPlayClick PlayResolved
         (fst (onPlayClick PlayResolved
                 (fst (playFromElement SAMPLE_URL PlayResolved
                         (mountComponent 1000)))))) = None /\
  ui (fst (onPlayClick PlayResolved
             (fst (onPlayClick PlayResolved
                     (fst (playFromElement SAMPLE_URL PlayResolved
                             (mountComponent 1000)))))))
  = ui (fst (playFromElement SAMPLE_URL PlayResolved (mountComponent 1000))) /\
  graph (fst (onPlayClick PlayResolved
                (fst (onPlayClick PlayResolved
                        (fst (playFromElement SAMPLE_URL PlayResolved
                                (mountComponent 1000)))))))
  = graph (fst (playFromElement SAMPLE_URL PlayResolved
                  (mountComponent 1000))) /\
  refs (fst (onPlayClick PlayResolved
               (fst (onPlayClick PlayResolved
                       (fst (playFromElement SAMPLE_URL PlayResolved
                               (mountComponent 1000)))))))
  = refs (fst (playFromElement SAMPLE_URL PlayResolved
                 (mountComponent 1000))) /\
  audioEl (fst (onPlayClick PlayResolved
                  (fst (onPlayClick PlayResolved
                          (fst (playFromElement SAMPLE_URL PlayResolved
                                  (mountComponent 1000)))))))
  = {| audio_src :=
         audio_src
           (audioEl (fst (playFromElement SAMPLE_URL PlayResolved
                            (mountComponent 1000))));
       audio_loop := true; audio_paused := false |}.
Proof.
  apply (pause_resume_round_trip
           (fst (playFromElement SAMPLE_URL PlayResolved (mountComponent 1000)))
           PlayResolved).
  - apply live_sample. apply live_mount.
  - reflexivity.
  - reflexivity.
  - reflexivity.
Defined.

(** * The controls and the clamps *)

(** X27. For a whole number of segments between 2 and 48, as the Segments
    slider gives them (4 to 36), the clamp changes nothing: the frame is
    drawn with exactly that many wedges. *)
Theorem segCount_identity_on_slider (Math_pow : Q -> Q -> Q) (st : State)
  (f : FrameIn) (n : Z) :
  reachable st ->
  segments (fi_params f) == inject_Z n -> (2 <= n <= 48)%Z ->
  exists fr,
    snd (draw Math_pow f st) = Ok fr /\
    fr_segCount fr = n /\ length (fr_wedges fr) = Z.to_nat n.
Proof.
  intros _ Hs Hn.
  destruct (draw_ok Math_pow f st) as [fr [Hd [_ [_ [Hseg [Hl _]]]]]].
  exists fr. rewrite Hd, Hl, Hseg. unfold segCountOf.
  rewrite Hs, Qfloor_Z.
  repeat split; f_equal; lia.
Qed.

Lemma segCount_identity_on_slider_witness :
  exists fr,
    snd (draw pow_sample (mkFrameIn sampleCanvas DEFAULT_PARAMS 1016 loudData)
           connected) = Ok fr /\
    fr_segCount fr = 12%Z /\ length (fr_wedges fr) = Z.to_nat 12.
Proof.
  apply (segCount_identity_on_slider pow_sample connected
           (mkFrameIn sampleCanvas DEFAULT_PARAMS 1016 loudData) 12).
  - unfold connected, mounted. apply reach_connect. apply reach_mount.
  - reflexivity.
  - lia.
Defined.

(** * Constant energy *)

(** ** The frame loop and the beat estimator *)

Section ConstantEnergy.

Variable Math_pow : Q -> Q -> Q.







End ConstantEnergy.

(** Half the cells at full scale: a frame of energy [0.5]. *)
Lemma half_scale_energy :
  energyOf (getByteFrequencyData (repeat xff 8 ++ repeat x00 8) silentData)
  == 0.5.
Proof. reflexivity. Qed.


Module B64Facts.

Import PrimFloat.


End B64Facts.
